(** * Binokel score counter: the scoring rules and the game state transitions

    A shallow embedding of [src/index.tsx]: the pure scoring function
    [calculateRoundScores], the handlers of the [App] component
    ([handleStartGame], [handleAddRound], [handleUndoRound], [handleEndGame],
    [handleReset]), its win-detection effect, and the [handleStart] callback
    of the team selection form.

    Modelling conventions.
    - A JavaScript [number] is an integer of [Z]: the scores, bids and
      counters of the program are whole numbers.
    - An object used as a dictionary ([{ [playerId: string]: number }]) is a
      [gmap string Z]; reading an absent key gives [None] ([undefined]).
    - [x || 0] on a dictionary read is [default 0]: both [undefined] and [0]
      give [0].
    - React state ([players], [activeGame], [winner], [view]) is one record
      that every handler takes and returns. *)

From Stdlib Require Import ZArith List Bool.
From stdpp Require Import base gmap strings list fin_maps fin_sets pretty.

Local Open Scope Z_scope.

(** ** Type definitions *)

Record Player : Type := mkPlayer {
  p_id : string;
  p_name : string;
  p_lifetimeScore : Z;
  p_gamesPlayed : Z;
  p_wins : Z
}.

Record Team : Type := mkTeam {
  t_name : string;
  t_players : list Player;
  t_score : Z
}.

Record Teams : Type := mkTeams {
  team1 : Team;
  team2 : Team
}.

Record RoundData : Type := mkRoundData {
  spielmacherId : string;
  bidValue : Z;
  meldValues : gmap string Z;
  trickPoints : gmap string Z;
  gameAbandoned : bool
}.

Record RoundCalculationResult : Type := mkRoundCalculationResult {
  team1RoundScore : Z;
  team2RoundScore : Z;
  playerScores : gmap string Z;
  reason : string
}.

Record RoundHistoryItem : Type := mkRoundHistoryItem {
  h_round : Z;
  h_team1RoundScore : Z;
  h_team2RoundScore : Z;
  h_team1Total : Z;
  h_team2Total : Z;
  h_spielmacherId : string;
  h_spielmacherName : string;
  h_bidValue : Z;
  h_playerScores : gmap string Z
}.

Record GameState : Type := mkGameState {
  teams : Teams;
  targetScore : Z;
  roundHistory : list RoundHistoryItem
}.

Inductive View : Type := view_game | view_stats.

(** The state of the [App] component: [players] and [activeGame] are the two
    values kept in local storage, [winner] and [view] are plain React
    state. *)
Record AppState : Type := mkAppState {
  view : View;
  players : list Player;
  activeGame : option GameState;
  winner : option Team
}.

(** ** Scoring logic *)

(** The two keys ['team1'] and ['team2'] of a [Teams] object. *)
Inductive TeamKey : Type := key_team1 | key_team2.

(** [teams[key]]. *)
Definition team_at (ts : Teams) (k : TeamKey) : Team :=
  match k with
  | key_team1 => team1 ts
  | key_team2 => team2 ts
  end.

(** [o || 0] for a dictionary read [o]. *)
Definition or0 (o : option Z) : Z := default 0 o.

(** [ps.some(p => p.id === i)]. *)
Definition some_id (ps : list Player) (i : string) : bool :=
  existsb (fun p => bool_decide (p_id p = i)) ps.

(** [teams.team1.players.some(p => p.id === spielmacherId) ? 'team1' : 'team2'] *)
Definition spielmacherTeamKey (rd : RoundData) (ts : Teams) : TeamKey :=
  if some_id (t_players (team1 ts)) (spielmacherId rd) then key_team1 else key_team2.

(** [spielmacherTeamKey === 'team1' ? 'team2' : 'team1'] *)
Definition otherTeamKey (rd : RoundData) (ts : Teams) : TeamKey :=
  match spielmacherTeamKey rd ts with
  | key_team1 => key_team2
  | key_team2 => key_team1
  end.

Definition spielmacherTeam (rd : RoundData) (ts : Teams) : Team :=
  team_at ts (spielmacherTeamKey rd ts).

Definition otherTeam (rd : RoundData) (ts : Teams) : Team :=
  team_at ts (otherTeamKey rd ts).

Definition getTeamMeld (rd : RoundData) (t : Team) : Z :=
  foldl (fun sum p => sum + or0 (meldValues rd !! p_id p)) 0 (t_players t).

Definition getTeamTricks (rd : RoundData) (t : Team) : Z :=
  foldl (fun sum p => sum + or0 (trickPoints rd !! p_id p)) 0 (t_players t).

(** [team.players.forEach(p => playerScores[p.id] = f(p.id))]: the
    assignments are made in list order into the one shared object, a later
    assignment to the same id overwrites an earlier one.  The three callbacks
    of the source read nothing of [p] but its id. *)
Definition assignScores (f : string -> Z) (ps : list Player)
    (scores : gmap string Z) : gmap string Z :=
  foldl (fun acc p => <[p_id p := f (p_id p)]> acc) scores ps.

(** The right-hand side that the source writes twice, for the bidder's team
    when the bid is made and for the other team:
    [(trickPoints[p.id] || 0) === 0 ? 0
       : (meldValues[p.id] || 0) + (trickPoints[p.id] || 0)]. *)
Definition zeroTrickRule (rd : RoundData) (i : string) : Z :=
  if bool_decide (or0 (trickPoints rd !! i) = 0) then 0
  else or0 (meldValues rd !! i) + or0 (trickPoints rd !! i).

(** [team.players.reduce((sum, p) => sum + playerScores[p.id], 0)].  The
    source reads the dictionary without a default; every player of both teams
    has been assigned before the read ([computePlayerScores_total] below), so
    the default of the model is never taken. *)
Definition getTeamScoreFromPlayerScores (scores : gmap string Z) (t : Team) : Z :=
  foldl (fun sum p => sum + or0 (scores !! p_id p)) 0 (t_players t).

Definition reasonAbandoned : string := "Spielmacher hat abgebrochen".

(** The first [if (gameAbandoned) ... else ...] of the source: it fills
    [playerScores] and sets [reason]. *)
Definition computePlayerScores (rd : RoundData) (ts : Teams)
    : gmap string Z * string :=
  let sT := spielmacherTeam rd ts in
  let oT := otherTeam rd ts in
  if gameAbandoned rd then
    (assignScores (fun _ => 0) (t_players oT)
       (assignScores (fun _ => 0) (t_players sT) ∅),
     reasonAbandoned)
  else
    let spielmacherTeamTotal := getTeamMeld rd sT + getTeamTricks rd sT in
    let '(scores, why) :=
      if bool_decide (bidValue rd <= spielmacherTeamTotal) then
        (assignScores (zeroTrickRule rd) (t_players sT) ∅,
         "Reizwert erreicht (" +:+ pretty spielmacherTeamTotal +:+ " >= "
            +:+ pretty (bidValue rd) +:+ ")")
      else
        (assignScores (fun _ => 0) (t_players sT) ∅,
         "Reizwert nicht erreicht (" +:+ pretty spielmacherTeamTotal +:+ " < "
            +:+ pretty (bidValue rd) +:+ ")")
    in
    (assignScores (zeroTrickRule rd) (t_players oT) scores, why).

(** [let spielmacherTeamRoundScore = getTeamScoreFromPlayerScores(...)] and
    the second [if], which overwrites it with the penalties applied at the
    team level. *)
Definition spielmacherTeamRoundScore (rd : RoundData) (ts : Teams)
    (scores : gmap string Z) : Z :=
  let sT := spielmacherTeam rd ts in
  let fromPlayerScores := getTeamScoreFromPlayerScores scores sT in
  if gameAbandoned rd then - bidValue rd
  else
    let spielmacherTeamTotal := getTeamMeld rd sT + getTeamTricks rd sT in
    if bool_decide (spielmacherTeamTotal < bidValue rd)
    then -2 * bidValue rd
    else fromPlayerScores.

Definition calculateRoundScores (rd : RoundData) (ts : Teams)
    : RoundCalculationResult :=
  let '(scores, why) := computePlayerScores rd ts in
  let sScore := spielmacherTeamRoundScore rd ts scores in
  let oScore := getTeamScoreFromPlayerScores scores (otherTeam rd ts) in
  {| team1RoundScore :=
       match spielmacherTeamKey rd ts with key_team1 => sScore | key_team2 => oScore end;
     team2RoundScore :=
       match spielmacherTeamKey rd ts with key_team2 => sScore | key_team1 => oScore end;
     playerScores := scores;
     reason := why |}.

(** The round score of the team under key [k], read off a result. *)
Definition roundScore_at (r : RoundCalculationResult) (k : TeamKey) : Z :=
  match k with
  | key_team1 => team1RoundScore r
  | key_team2 => team2RoundScore r
  end.

(** ** The handlers of [App] *)

(** How a call ends.  [InvalidInput] and [IllegalTransition] are the error
    kinds of the design documentation; the source has no [throw] statement
    and raises neither, so the only [Throw] a modelled function can end in
    comes from the runtime: the [TypeError] of a property read on
    [undefined]. *)
Inductive ErrorKind : Type := InvalidInput | IllegalTransition | TypeError.

Inductive Completion (A : Type) : Type :=
  | Normal (a : A)
  | Throw (e : ErrorKind).
Arguments Normal {A} a.
Arguments Throw {A} e.

Definition set_players (st : AppState) (ps : list Player) : AppState :=
  {| view := view st; players := ps; activeGame := activeGame st; winner := winner st |}.

Definition set_activeGame (st : AppState) (g : option GameState) : AppState :=
  {| view := view st; players := players st; activeGame := g; winner := winner st |}.

Definition set_winner (st : AppState) (w : option Team) : AppState :=
  {| view := view st; players := players st; activeGame := activeGame st; winner := w |}.

(** [{ ...p, lifetimeScore: v }] *)
Definition with_lifetimeScore (p : Player) (v : Z) : Player :=
  {| p_id := p_id p; p_name := p_name p; p_lifetimeScore := v;
     p_gamesPlayed := p_gamesPlayed p; p_wins := p_wins p |}.

(** [{ ...t, score: v }] *)
Definition with_score (t : Team) (v : Z) : Team :=
  {| t_name := t_name t; t_players := t_players t; t_score := v |}.


(** [setActiveGame({ teams, targetScore, roundHistory: [] })] *)
Definition handleStartGame (ts : Teams) (target : Z) (st : AppState) : AppState :=
  set_activeGame st
    (Some {| teams := ts; targetScore := target; roundHistory := [] |}).

Definition run_handleStartGame (ts : Teams) (target : Z) (st : AppState)
    : Completion AppState :=
  Normal (handleStartGame ts target st).

(** The lifetime scores after a round: [prevPlayers.map(...)] of
    [handleAddRound]. *)
Definition applyRoundToPlayers (scores : gmap string Z) (ps : list Player)
    : list Player :=
  map (fun p =>
         match scores !! p_id p with
         | Some v => with_lifetimeScore p (p_lifetimeScore p + v)
         | None => p
         end) ps.

Definition newRoundHistoryItem (g : GameState) (rd : RoundData) : RoundHistoryItem :=
  let r := calculateRoundScores rd (teams g) in
  let spielmacher :=
    find (fun p => bool_decide (p_id p = spielmacherId rd))
         (t_players (team1 (teams g)) ++ t_players (team2 (teams g))) in
  {| h_round := Z.of_nat (length (roundHistory g)) + 1;
     h_team1RoundScore := team1RoundScore r;
     h_team2RoundScore := team2RoundScore r;
     h_team1Total := t_score (team1 (teams g)) + team1RoundScore r;
     h_team2Total := t_score (team2 (teams g)) + team2RoundScore r;
     h_spielmacherId := spielmacherId rd;
     h_spielmacherName :=
       match spielmacher with
       | Some p => if bool_decide (p_name p = "") then "?" else p_name p
       | None => "?"
       end;
     h_bidValue := bidValue rd;
     h_playerScores := playerScores r |}.

Definition handleAddRound (rd : RoundData) (st : AppState) : AppState :=
  match activeGame st with
  | None => st
  | Some g =>
      let r := calculateRoundScores rd (teams g) in
      let updatedTeams :=
        {| team1 := with_score (team1 (teams g))
                      (t_score (team1 (teams g)) + team1RoundScore r);
           team2 := with_score (team2 (teams g))
                      (t_score (team2 (teams g)) + team2RoundScore r) |} in
      set_activeGame
        (set_players st (applyRoundToPlayers (playerScores r) (players st)))
        (Some {| teams := updatedTeams;
                 targetScore := targetScore g;
                 roundHistory := roundHistory g ++ [newRoundHistoryItem g rd] |})
  end.

(** The lifetime scores after an undo: [prevPlayers.map(...)] of
    [handleUndoRound]. *)
Definition revertRoundOnPlayers (scores : gmap string Z) (ps : list Player)
    : list Player :=
  map (fun p =>
         let pointsToRevert := or0 (scores !! p_id p) in
         if bool_decide (pointsToRevert <> 0)
         then with_lifetimeScore p (p_lifetimeScore p - pointsToRevert)
         else p) ps.

Definition handleUndoRound (st : AppState) : AppState :=
  match activeGame st with
  | None => st
  | Some g =>
      if bool_decide (length (roundHistory g) = 0%nat) then st
      else
        match last (roundHistory g) with
        | None => st
        | Some lastRound =>
            let newTeams :=
              {| team1 := with_score (team1 (teams g))
                            (t_score (team1 (teams g)) - h_team1RoundScore lastRound);
                 team2 := with_score (team2 (teams g))
                            (t_score (team2 (teams g)) - h_team2RoundScore lastRound) |} in
            set_activeGame
              (set_players st
                 (revertRoundOnPlayers (h_playerScores lastRound) (players st)))
              (Some {| teams := newTeams;
                       targetScore := targetScore g;
                       roundHistory := removelast (roundHistory g) |})
        end
  end.

(** The ledger update of [handleEndGame]: [prevPlayers.map(...)]. *)
Definition recordGameCompletion (winnerTeam loserTeam : Team) (ps : list Player)
    : list Player :=
  map (fun p =>
         let isWinner := some_id (t_players winnerTeam) (p_id p) in
         let playedInThisGame :=
           if isWinner then true else some_id (t_players loserTeam) (p_id p) in
         {| p_id := p_id p; p_name := p_name p;
            p_lifetimeScore := p_lifetimeScore p;
            p_gamesPlayed :=
              if playedInThisGame then p_gamesPlayed p + 1 else p_gamesPlayed p;
            p_wins := if isWinner then p_wins p + 1 else p_wins p |}) ps.

(** [activeGame.teams.team1.name === winnerTeam.name
       ? activeGame.teams.team2 : activeGame.teams.team1] *)
Definition loserTeamOf (g : GameState) (winnerTeam : Team) : Team :=
  if bool_decide (t_name (team1 (teams g)) = t_name winnerTeam)
  then team2 (teams g) else team1 (teams g).

Definition handleEndGame (winnerTeam : Team) (st : AppState) : AppState :=
  match activeGame st with
  | None => st
  | Some g =>
      set_players (set_winner st (Some winnerTeam))
        (recordGameCompletion winnerTeam (loserTeamOf g winnerTeam) (players st))
  end.

Definition handleReset (st : AppState) : AppState :=
  {| view := view_game; players := players st; activeGame := None; winner := None |}.

(** Whether the win-detection effect calls [handleEndGame], and for which
    team. *)
Definition detectWinner (st : AppState) : option Team :=
  match activeGame st, winner st with
  | Some g, None =>
      if bool_decide (targetScore g <= t_score (team1 (teams g)))
      then Some (team1 (teams g))
      else if bool_decide (targetScore g <= t_score (team2 (teams g)))
           then Some (team2 (teams g))
           else None
  | _, _ => None
  end.

(** [useEffect(() => { ... }, [activeGame, winner])]: run by React after
    every render in which [activeGame] or [winner] changed. *)
Definition winEffect (st : AppState) : AppState :=
  match detectWinner st with
  | Some w => handleEndGame w st
  | None => st
  end.

(** ** The team selection form *)

(** [new Set([team1p1, team1p2, team2p1, team2p2].filter(Boolean))] *)
Definition selectedPlayerIds (team1p1 team1p2 team2p1 team2p2 : string)
    : gset string :=
  list_to_set (filter (fun s : string => s <> "") [team1p1; team1p2; team2p1; team2p2]).

(** [players.find(p => p.id === i)] *)
Definition findPlayer (ps : list Player) (i : string) : option Player :=
  find (fun p => bool_decide (p_id p = i)) ps.

(** [handleStart] of [TeamSelectionScreen], with [onStartGame] bound to
    [handleStartGame] as [App] renders it.  A selected id that is not in
    [players] makes [find] return [undefined], and the read of [.name] on it
    throws. *)
Definition handleStart (team1p1 team1p2 team2p1 team2p2 : string)
    (target : Z) (st : AppState) : Completion AppState :=
  if bool_decide (size (selectedPlayerIds team1p1 team1p2 team2p1 team2p2) <> 4%nat)
  then Normal st
  else
    match findPlayer (players st) team1p1, findPlayer (players st) team1p2,
          findPlayer (players st) team2p1, findPlayer (players st) team2p2 with
    | Some p1_1, Some p1_2, Some p2_1, Some p2_2 =>
        let newTeams :=
          {| team1 := {| t_name := p_name p1_1 +:+ " & " +:+ p_name p1_2;
                         t_players := [p1_1; p1_2]; t_score := 0 |};
             team2 := {| t_name := p_name p2_1 +:+ " & " +:+ p_name p2_2;
                         t_players := [p2_1; p2_2]; t_score := 0 |} |} in
        Normal (handleStartGame newTeams target st)
    | _, _, _, _ => Throw TypeError
    end.

(** * Vocabulary of the statements *)

(** The sum of a list of integers. *)
Definition sumZ (l : list Z) : Z := foldr Z.add 0 l.

(** The ids of a list of players. *)
Definition ids (ps : list Player) : list string := map p_id ps.

(** The four (two and two) players of a game. *)
Definition allPlayers (ts : Teams) : list Player :=
  t_players (team1 ts) ++ t_players (team2 ts).

(** No player id is on both teams.  The team selection form only starts a
    game with four different ids, and no operation changes the teams
    ([run_teams_disjoint] below). *)
Definition teams_disjoint (ts : Teams) : Prop :=
  forall p q, p ∈ t_players (team1 ts) -> q ∈ t_players (team2 ts) ->
              p_id p <> p_id q.

(** The part of the state the scoreboard shows: both cumulative team scores
    and the number of rounds played. *)
Definition scoreboard (st : AppState) : option (Z * Z * nat) :=
  match activeGame st with
  | Some g => Some (t_score (team1 (teams g)), t_score (team2 (teams g)),
                    length (roundHistory g))
  | None => None
  end.

(** The game after [handleAddRound]. *)
Definition gameAfterRound (g : GameState) (rd : RoundData) : GameState :=
  let r := calculateRoundScores rd (teams g) in
  {| teams :=
       {| team1 := with_score (team1 (teams g))
                     (t_score (team1 (teams g)) + team1RoundScore r);
          team2 := with_score (team2 (teams g))
                     (t_score (team2 (teams g)) + team2RoundScore r) |};
     targetScore := targetScore g;
     roundHistory := roundHistory g ++ [newRoundHistoryItem g rd] |}.

(** The two operations on a game in progress. *)
Inductive Op : Type :=
  | addRound (rd : RoundData)
  | undoLastRound.

(** One operation as React runs it: the handler, then the effect of the next
    render. *)
Definition step (st : AppState) (op : Op) : AppState :=
  winEffect
    match op with
    | addRound rd => handleAddRound rd st
    | undoLastRound => handleUndoRound st
    end.

Definition run (ops : list Op) (st : AppState) : AppState := foldl step st ops.

(** A game as the team selection form starts it: both scores 0, no round
    played ([handleStart_fresh] below). *)
Definition freshlyStarted (st : AppState) : Prop :=
  exists g, activeGame st = Some g /\
            t_score (team1 (teams g)) = 0 /\
            t_score (team2 (teams g)) = 0 /\
            roundHistory g = [].

(** The invariant of the round history. *)
Definition history_ok (g : GameState) : Prop :=
  t_score (team1 (teams g)) = sumZ (map h_team1RoundScore (roundHistory g)) /\
  t_score (team2 (teams g)) = sumZ (map h_team2RoundScore (roundHistory g)) /\
  map h_round (roundHistory g)
  = map Z.of_nat (seq 1 (length (roundHistory g))).

(** * Sample data: players, teams and rounds *)

(** The key of the team that faces the team under [k]. *)
Definition opposite (k : TeamKey) : TeamKey :=
  match k with
  | key_team1 => key_team2
  | key_team2 => key_team1
  end.

(** The team the bidder is on, told by the bidder's id and the player lists
    alone: team1 when the id is among the ids of team1, team2 when it is
    among the ids of team2 and not among those of team1.  (For teams that
    share no id the second case is just: the id is on team2.) *)
Definition bidder_on (ts : Teams) (rd : RoundData) (k : TeamKey) : Prop :=
  match k with
  | key_team1 => spielmacherId rd ∈ ids (t_players (team1 ts))
  | key_team2 => spielmacherId rd ∈ ids (t_players (team2 ts)) /\
                 spielmacherId rd ∉ ids (t_players (team1 ts))
  end.

(** The meld points of a team as the statements speak of them: the sum, over
    the players of the team, of the entries under their ids, an absent entry
    counting 0. *)
Definition teamMeld (rd : RoundData) (t : Team) : Z :=
  sumZ (map (fun p => or0 (meldValues rd !! p_id p)) (t_players t)).

(** The trick points of a team, likewise. *)
Definition teamTricks (rd : RoundData) (t : Team) : Z :=
  sumZ (map (fun p => or0 (trickPoints rd !! p_id p)) (t_players t)).

Definition anna : Player := mkPlayer "player-1" "Anna" 0 0 0.
Definition bert : Player := mkPlayer "player-2" "Bert" 0 0 0.
Definition cleo : Player := mkPlayer "player-3" "Cleo" 0 0 0.
Definition dirk : Player := mkPlayer "player-4" "Dirk" 0 0 0.

Definition sampleTeams : Teams :=
  {| team1 := mkTeam "Anna & Bert" [anna; bert] 0;
     team2 := mkTeam "Cleo & Dirk" [cleo; dirk] 0 |}.

(** Bid 150 by Anna; her team melds 40 and takes 130 in tricks. *)
Definition roundBidMade : RoundData :=
  {| spielmacherId := "player-1"; bidValue := 150;
     meldValues := {[ "player-1" := 40; "player-3" := 20 ]};
     trickPoints := {[ "player-1" := 100; "player-2" := 30; "player-4" := 110 ]};
     gameAbandoned := false |}.

(** Bid 150 by Anna; her team reaches 40 + 80 = 120 only. *)
Definition roundBidFailed : RoundData :=
  {| spielmacherId := "player-1"; bidValue := 150;
     meldValues := {[ "player-1" := 40; "player-3" := 20 ]};
     trickPoints := {[ "player-1" := 50; "player-2" := 30; "player-3" := 50;
                       "player-4" := 110 ]};
     gameAbandoned := false |}.

(** Bid 200 by Cleo, abandoned; meld and tricks were entered all the same. *)
Definition roundAbandoned : RoundData :=
  {| spielmacherId := "player-3"; bidValue := 200;
     meldValues := {[ "player-1" := 40; "player-3" := 20 ]};
     trickPoints := {[ "player-1" := 50; "player-2" := 30 ]};
     gameAbandoned := true |}.

Definition sampleLedger : list Player := [anna; bert; cleo; dirk].

Definition sampleGame : GameState :=
  {| teams := sampleTeams; targetScore := 1000; roundHistory := [] |}.

(** The state right after [handleStartGame sampleTeams 1000]. *)
Definition sampleApp : AppState :=
  {| view := view_game; players := sampleLedger;
     activeGame := Some sampleGame; winner := None |}.

(** Bid 200 by Anna, abandoned. *)
Definition roundAbandonedByAnna : RoundData :=
  {| spielmacherId := "player-1"; bidValue := 200;
     meldValues := {[ "player-1" := 40; "player-3" := 20 ]};
     trickPoints := {[ "player-3" := 50; "player-4" := 30 ]};
     gameAbandoned := true |}.

(** Bid 200 by Dirk; his team reaches 20 + 110 = 130 only, the other team
    has 40 + 130 = 170. *)
Definition roundBidFailedByDirk : RoundData :=
  {| spielmacherId := "player-4"; bidValue := 200;
     meldValues := {[ "player-1" := 40; "player-3" := 20 ]};
     trickPoints := {[ "player-1" := 100; "player-2" := 30; "player-3" := 10;
                       "player-4" := 100 ]};
     gameAbandoned := false |}.

(** Bid 200 by Cleo; her team makes 100 + 150 = 250, the other team has 90
    in tricks. *)
Definition roundBidMadeByCleo : RoundData :=
  {| spielmacherId := "player-3"; bidValue := 200;
     meldValues := {[ "player-3" := 100 ]};
     trickPoints := {[ "player-1" := 60; "player-2" := 30; "player-3" := 50;
                       "player-4" := 100 ]};
     gameAbandoned := false |}.

(** A bidder who is on neither team: the round is computed all the same. *)
Definition roundForeignBidder : RoundData :=
  {| spielmacherId := "player-9"; bidValue := 150;
     meldValues := {[ "player-1" := 40; "player-3" := 20 ]};
     trickPoints := {[ "player-1" := 100; "player-2" := 30; "player-4" := 110 ]};
     gameAbandoned := false |}.

Definition lopsidedTeams : Teams :=
  {| team1 := mkTeam "Anna" [anna] 70;
     team2 := mkTeam "Anna & Anna" [anna; anna] 0 |}.

Definition noGameApp : AppState :=
  {| view := view_game; players := sampleLedger; activeGame := None; winner := None |}.

(** Scores 900 and 950 of 1000: the next round can take both teams over the
    target. *)
Definition closeGame : GameState :=
  {| teams := {| team1 := mkTeam "Anna & Bert" [anna; bert] 900;
                 team2 := mkTeam "Cleo & Dirk" [cleo; dirk] 950 |};
     targetScore := 1000; roundHistory := [] |}.

Definition closeApp : AppState :=
  {| view := view_game; players := sampleLedger;
     activeGame := Some closeGame; winner := None |}.

Definition anna2 : Player := mkPlayer "player-3" "Anna" 0 0 0.
Definition bert2 : Player := mkPlayer "player-4" "Bert" 0 0 0.

(** Four players, two of them called Anna and two Bert. *)
Definition twinNoGame : AppState :=
  {| view := view_game; players := [anna; bert; anna2; bert2];
     activeGame := None; winner := None |}.

Definition twinApp : AppState :=
  {| view := view_game; players := [anna; bert; anna2; bert2];
     activeGame :=
       Some {| teams := {| team1 := mkTeam "Anna & Bert" [anna; bert] 0;
                           team2 := mkTeam "Anna & Bert" [anna2; bert2] 0 |};
               targetScore := 150; roundHistory := [] |};
     winner := None |}.

(** Bid 150 by the second Anna; her team makes 170, the other team 110. *)
Definition twinRound : RoundData :=
  {| spielmacherId := "player-3"; bidValue := 150;
     meldValues := {[ "player-3" := 40 ]};
     trickPoints := {[ "player-1" := 110; "player-3" := 100; "player-4" := 30 ]};
     gameAbandoned := false |}.

(** A ledger with earlier points, in the sample game. *)
Definition seasonedApp : AppState :=
  {| view := view_game;
     players := [mkPlayer "player-1" "Anna" 500 3 1; mkPlayer "player-2" "Bert" 420 3 1;
                 mkPlayer "player-3" "Cleo" 610 3 2; mkPlayer "player-4" "Dirk" 380 3 2];
     activeGame := Some sampleGame; winner := None |}.

(** * The rest of the application *)

(** ** The player list *)

(** The player [handleAddPlayer] creates; [now] is the value of
    [Date.now()]. *)
Definition newPlayerAt (name : string) (now : Z) : Player :=
  {| p_id := "player-" +:+ pretty now; p_name := name;
     p_lifetimeScore := 0; p_gamesPlayed := 0; p_wins := 0 |}.

(** [setPlayers(prev => [...prev, newPlayer])] *)
Definition handleAddPlayer (name : string) (now : Z) (st : AppState) : AppState :=
  set_players st (players st ++ [newPlayerAt name now]).

(** [handleDeletePlayer] of [PlayerStatsScreen]; [confirmed] is the answer
    to [window.confirm]. *)
Definition handleDeletePlayer (playerId : string) (confirmed : bool)
    (st : AppState) : AppState :=
  if confirmed
  then set_players st (filter (fun p => p_id p <> playerId) (players st))
  else st.

(** ** The round history table *)

(** [getTeamForPlayer] of [RoundHistory]. *)
Definition getTeamForPlayer (ts : Teams) (playerId : string) : option TeamKey :=
  if some_id (t_players (team1 ts)) playerId then Some key_team1
  else if some_id (t_players (team2 ts)) playerId then Some key_team2
  else None.

(** The class of a row:
    [spielmacherTeam === 'team1' ? 'bid-team1' : 'bid-team2']. *)
Definition rowClassName (ts : Teams) (round : RoundHistoryItem) : string :=
  match getTeamForPlayer ts (h_spielmacherId round) with
  | Some key_team1 => "bid-team1"
  | _ => "bid-team2"
  end.

(** ** The round form *)

Record ReviewData : Type := mkReviewData {
  calculation : RoundCalculationResult;
  rawData : RoundData
}.

(** The state of [RoundInput]; the two dictionaries hold the texts of the
    input fields. *)
Record RoundInputState : Type := mkRoundInputState {
  f_spielmacherId : string;
  f_bidValue : Z;
  f_meldValues : gmap string string;
  f_trickPoints : gmap string string;
  f_gameAbandoned : bool;
  f_reviewData : option ReviewData
}.

(** [resetForm]: an empty text per player of the game, the first player as
    bidder, bid 150. *)
Definition resetForm (ts : Teams) : RoundInputState :=
  let initialPlayerValues : gmap string string :=
    foldl (fun acc player => <[p_id player := ""]> acc) ∅ (allPlayers ts) in
  {| f_spielmacherId := from_option p_id "" (head (allPlayers ts));
     f_bidValue := 150;
     f_meldValues := initialPlayerValues;
     f_trickPoints := initialPlayerValues;
     f_gameAbandoned := false;
     f_reviewData := None |}.

(** [handlePlayerValueChange(setMeldValues, playerId, value)] *)
Definition changeMeldValue (playerId value : string) (form : RoundInputState)
    : RoundInputState :=
  {| f_spielmacherId := f_spielmacherId form; f_bidValue := f_bidValue form;
     f_meldValues := <[playerId := value]> (f_meldValues form);
     f_trickPoints := f_trickPoints form;
     f_gameAbandoned := f_gameAbandoned form; f_reviewData := f_reviewData form |}.

(** [handlePlayerValueChange(setTrickPoints, playerId, value)] *)
Definition changeTrickPoints (playerId value : string) (form : RoundInputState)
    : RoundInputState :=
  {| f_spielmacherId := f_spielmacherId form; f_bidValue := f_bidValue form;
     f_meldValues := f_meldValues form;
     f_trickPoints := <[playerId := value]> (f_trickPoints form);
     f_gameAbandoned := f_gameAbandoned form; f_reviewData := f_reviewData form |}.

Section RoundInput.
(** [toNumber s] stands for [Number(s) || 0], the reading of a field's text
    by the JavaScript runtime. *)
Variable toNumber : string -> Z.

(** [Object.values(trickPoints).reduce((sum, points) =>
       sum + (Number(points) || 0), 0)]; the order in which the entries are
    visited plays no part in a sum of integers. *)
Definition totalTrickPoints (form : RoundInputState) : Z :=
  map_fold (fun _ points sum => sum + toNumber points) 0 (f_trickPoints form).

Definition remainingTrickPoints (form : RoundInputState) : Z :=
  240 - totalTrickPoints form.

(** [!gameAbandoned && remainingTrickPoints !== 0]: the submit button is
    disabled. *)
Definition isSubmitDisabled (form : RoundInputState) : bool :=
  negb (f_gameAbandoned form) && bool_decide (remainingTrickPoints form <> 0).

(** The [rawData] of [handleReview]: both dictionaries read as numbers, key
    by key. *)
Definition rawDataOf (form : RoundInputState) : RoundData :=
  {| spielmacherId := f_spielmacherId form;
     bidValue := f_bidValue form;
     meldValues := toNumber <$> f_meldValues form;
     trickPoints := toNumber <$> f_trickPoints form;
     gameAbandoned := f_gameAbandoned form |}.

Definition handleReview (form : RoundInputState) (ts : Teams) : RoundInputState :=
  {| f_spielmacherId := f_spielmacherId form; f_bidValue := f_bidValue form;
     f_meldValues := f_meldValues form; f_trickPoints := f_trickPoints form;
     f_gameAbandoned := f_gameAbandoned form;
     f_reviewData :=
       Some {| calculation := calculateRoundScores (rawDataOf form) ts;
               rawData := rawDataOf form |} |}.
End RoundInput.

(** [handleConfirmRound], with [onAddRound] bound to [handleAddRound] and
    [ts] the teams [RoundInput] is rendered with: the form and the
    application after the click. *)
Definition handleConfirmRound (form : RoundInputState) (ts : Teams)
    (st : AppState) : RoundInputState * AppState :=
  match f_reviewData form with
  | None => (form, st)
  | Some rv => (resetForm ts, handleAddRound (rawData rv) st)
  end.

(** ** Vocabulary of the further statements *)

(** What the recorded rounds have given the player with id [i]. *)
Definition roundsCredit (h : list RoundHistoryItem) (i : string) : Z :=
  sumZ (map (fun x => or0 (h_playerScores x !! i)) h).

(** Two pairs of teams with the same player ids, in the same order. *)
Definition same_ids (ts ts' : Teams) : Prop :=
  ids (t_players (team1 ts)) = ids (t_players (team1 ts')) /\
  ids (t_players (team2 ts)) = ids (t_players (team2 ts')).

(** The game after [handleUndoRound] took the entry [x] off the history
    [h ++ [x]]. *)
Definition gameAfterUndo (g : GameState) (h : list RoundHistoryItem)
    (x : RoundHistoryItem) : GameState :=
  {| teams :=
       {| team1 := with_score (team1 (teams g))
                     (t_score (team1 (teams g)) - h_team1RoundScore x);
          team2 := with_score (team2 (teams g))
                     (t_score (team2 (teams g)) - h_team2RoundScore x) |};
     targetScore := targetScore g;
     roundHistory := h |}.

(** The totals stored in the history entries are the running sums of the
    round scores. *)
Definition totals_ok (g : GameState) : Prop :=
  forall k item, roundHistory g !! k = Some item ->
    h_team1Total item
    = sumZ (map h_team1RoundScore (take (S k) (roundHistory g))) /\
    h_team2Total item
    = sumZ (map h_team2RoundScore (take (S k) (roundHistory g))).

(** Id and lifetime score of each player of the ledger, in order. *)
Definition ledgerScores (ps : list Player) : list (string * Z) :=
  map (fun p => (p_id p, p_lifetimeScore p)) ps.

(** The id [handleAddPlayer] gives at clock value [now]. *)
Definition playerIdAt (now : Z) : string := "player-" +:+ pretty now.

(** Several players added one after the other, each with the clock value
    of its addition. *)
Definition addPlayers (entries : list (string * Z)) (st : AppState) : AppState :=
  foldl (fun s e => handleAddPlayer e.1 e.2 s) st entries.

(** The two teams with their places exchanged. *)
Definition swapTeams (ts : Teams) : Teams :=
  {| team1 := team2 ts; team2 := team1 ts |}.

(** The close game after a round that takes both teams over the target. *)
Definition wonApp : AppState := step closeApp (addRound roundBidMade).

(** A reading of field texts for the examples: a text of decimal digits is
    its number, any other text is 0. *)
Definition digitValue (c : Ascii.ascii) : option Z :=
  let n := Ascii.nat_of_ascii c in
  if bool_decide (48 <= n <= 57)%nat then Some (Z.of_nat n - 48) else None.

Fixpoint readDigits (acc : Z) (s : string) : option Z :=
  match s with
  | EmptyString => Some acc
  | String c s' =>
      match digitValue c with
      | Some d => readDigits (10 * acc + d) s'
      | None => None
      end
  end.

Definition decimalNumber (s : string) : Z := default 0 (readDigits 0 s).

(** The sample game's form with the trick points 100, 30, 0 and 110. *)
Definition sampleForm : RoundInputState :=
  changeTrickPoints "player-4" "110"
    (changeTrickPoints "player-2" "30"
       (changeTrickPoints "player-1" "100"
          (changeMeldValue "player-1" "40" (resetForm sampleTeams)))).

(** Bid 150 by Anna; all four players took tricks, 240 in all. *)
Definition roundAllTricks : RoundData :=
  {| spielmacherId := "player-1"; bidValue := 150;
     meldValues := {[ "player-1" := 40; "player-3" := 20 ]};
     trickPoints := {[ "player-1" := 100; "player-2" := 30; "player-3" := 10;
                       "player-4" := 100 ]};
     gameAbandoned := false |}.

(** * Properties of the scoring logic *)

Section Reduce.
Context {A : Type} (f : A -> Z).

Lemma reduce_sum (l : list A) (a : Z) :
  foldl (fun sum x => sum + f x) a l = a + sumZ (map f l).
Proof.
  revert a. induction l as [|x l IH]; intros a; simpl.
  - lia.
  - rewrite IH. lia.
Qed.

Lemma sumZ_all_zero (l : list A) :
  (forall x, x ∈ l -> f x = 0) -> sumZ (map f l) = 0.
Proof.
  induction l as [|x l IH]; intros H; simpl; [done|].
  rewrite (H x) by (left). rewrite IH; [done|].
  intros y Hy. apply H. by right.
Qed.

End Reduce.

Lemma getTeamScoreFromPlayerScores_sum scores t :
  getTeamScoreFromPlayerScores scores t
  = sumZ (map (fun p => or0 (scores !! p_id p)) (t_players t)).
Proof. unfold getTeamScoreFromPlayerScores. rewrite reduce_sum. lia. Qed.

Lemma some_id_true ps i : some_id ps i = true <-> i ∈ ids ps.
Proof.
  unfold some_id, ids. rewrite existsb_exists, list_elem_of_fmap.
  split.
  - intros (p & Hin & Heq). apply bool_decide_eq_true in Heq.
    exists p. split; [done|]. by apply list_elem_of_In.
  - intros (p & -> & Hin). exists p. split; [by apply list_elem_of_In|].
    by apply bool_decide_eq_true.
Qed.

Lemma elem_of_ids p ps : p ∈ ps -> p_id p ∈ ids ps.
Proof. intros H. unfold ids. apply list_elem_of_fmap. eauto. Qed.

(** What a run of assignments leaves under a key. *)
Lemma assignScores_lookup f ps scores i :
  assignScores f ps scores !! i
  = if decide (i ∈ ids ps) then Some (f i) else scores !! i.
Proof.
  unfold assignScores, ids. revert scores.
  induction ps as [|p ps IH]; intros scores; simpl.
  - destruct (decide (i ∈ [])) as [H|H]; [|done]. by apply elem_of_nil in H.
  - rewrite IH. destruct (decide (i = p_id p)) as [->|Hne].
    + rewrite lookup_insert_eq.
      rewrite (decide_True (P := p_id p ∈ p_id p :: map p_id ps)) by left.
      by destruct (decide (p_id p ∈ map p_id ps)).
    + rewrite lookup_insert_ne by done.
      destruct (decide (i ∈ map p_id ps)) as [H1|H1];
        destruct (decide (i ∈ p_id p :: map p_id ps)) as [H2|H2]; try done.
      * exfalso. apply H2. by right.
      * exfalso. apply elem_of_cons in H2 as [?|?]; [done|]. by apply H1.
Qed.

Lemma assignScores_lookup_in f ps scores p :
  p ∈ ps -> assignScores f ps scores !! p_id p = Some (f (p_id p)).
Proof.
  intros H. rewrite assignScores_lookup.
  rewrite decide_True; [done|]. by apply elem_of_ids.
Qed.

Lemma assignScores_lookup_notin f ps scores i :
  i ∉ ids ps -> assignScores f ps scores !! i = scores !! i.
Proof. intros H. rewrite assignScores_lookup. by rewrite decide_False. Qed.

(** The two teams of a round are the two teams of the game. *)
Lemma elem_of_allPlayers rd ts p :
  p ∈ allPlayers ts <->
  p ∈ t_players (spielmacherTeam rd ts) \/ p ∈ t_players (otherTeam rd ts).
Proof.
  unfold allPlayers, spielmacherTeam, otherTeam, otherTeamKey.
  rewrite elem_of_app. destruct (spielmacherTeamKey rd ts); simpl; tauto.
Qed.

Lemma teams_disjoint_round rd ts p q :
  teams_disjoint ts ->
  p ∈ t_players (spielmacherTeam rd ts) -> q ∈ t_players (otherTeam rd ts) ->
  p_id p <> p_id q.
Proof.
  unfold teams_disjoint, spielmacherTeam, otherTeam, otherTeamKey.
  intros Hd. destruct (spielmacherTeamKey rd ts); simpl; intros Hp Hq.
  - by apply Hd.
  - intros Heq. by apply (Hd q p).
Qed.

Lemma not_elem_of_ids ps i :
  (forall q, q ∈ ps -> i <> p_id q) -> i ∉ ids ps.
Proof.
  intros H Hin. unfold ids in Hin. apply list_elem_of_fmap in Hin as (q & -> & Hq).
  by apply (H q).
Qed.

(** The result, field by field. *)
Lemma roundScore_at_spielmacher rd ts :
  roundScore_at (calculateRoundScores rd ts) (spielmacherTeamKey rd ts)
  = spielmacherTeamRoundScore rd ts (playerScores (calculateRoundScores rd ts)).
Proof.
  unfold calculateRoundScores, roundScore_at.
  destruct (computePlayerScores rd ts) as [scores why]; simpl.
  by destruct (spielmacherTeamKey rd ts).
Qed.

Lemma roundScore_at_other rd ts :
  roundScore_at (calculateRoundScores rd ts) (otherTeamKey rd ts)
  = getTeamScoreFromPlayerScores (playerScores (calculateRoundScores rd ts))
      (otherTeam rd ts).
Proof.
  unfold calculateRoundScores, roundScore_at, otherTeamKey.
  destruct (computePlayerScores rd ts) as [scores why]; simpl.
  by destruct (spielmacherTeamKey rd ts).
Qed.

Lemma playerScores_eq rd ts :
  playerScores (calculateRoundScores rd ts) = (computePlayerScores rd ts).1.
Proof.
  unfold calculateRoundScores. by destruct (computePlayerScores rd ts).
Qed.

Lemma reason_eq rd ts :
  reason (calculateRoundScores rd ts) = (computePlayerScores rd ts).2.
Proof.
  unfold calculateRoundScores. by destruct (computePlayerScores rd ts).
Qed.

(** Every player of both teams has an entry in [playerScores]: the read
    without default in [getTeamScoreFromPlayerScores] never meets
    [undefined]. *)
Lemma computePlayerScores_total rd ts p :
  p ∈ allPlayers ts ->
  is_Some (playerScores (calculateRoundScores rd ts) !! p_id p).
Proof.
  rewrite (elem_of_allPlayers rd), playerScores_eq. unfold computePlayerScores.
  intros Hp.
  destruct (gameAbandoned rd); [|case_bool_decide]; simpl;
    rewrite !assignScores_lookup; repeat case_decide; eauto;
    destruct Hp as [Hp|Hp]; apply elem_of_ids in Hp; done.
Qed.

(** ** Sample data: four players, two teams, the scenarios of the rules *)

(** ** The three branches of [calculateRoundScores] *)

Lemma abandoned_scores_zero rd ts i v :
  gameAbandoned rd = true ->
  playerScores (calculateRoundScores rd ts) !! i = Some v -> v = 0.
Proof.
  intros Hab. rewrite playerScores_eq. unfold computePlayerScores.
  rewrite Hab. simpl. rewrite !assignScores_lookup.
  repeat case_decide; rewrite ?lookup_empty; congruence.
Qed.

Lemma bid_failed_scores rd ts :
  gameAbandoned rd = false ->
  getTeamMeld rd (spielmacherTeam rd ts) + getTeamTricks rd (spielmacherTeam rd ts)
    < bidValue rd ->
  playerScores (calculateRoundScores rd ts)
  = assignScores (zeroTrickRule rd) (t_players (otherTeam rd ts))
      (assignScores (fun _ => 0) (t_players (spielmacherTeam rd ts)) ∅).
Proof.
  intros Hab Hlt. rewrite playerScores_eq. unfold computePlayerScores. rewrite Hab.
  by rewrite bool_decide_eq_false_2 by lia.
Qed.

Lemma bid_failed_scores_zero rd ts i :
  teams_disjoint ts ->
  gameAbandoned rd = false ->
  getTeamMeld rd (spielmacherTeam rd ts) + getTeamTricks rd (spielmacherTeam rd ts)
    < bidValue rd ->
  i ∈ ids (t_players (spielmacherTeam rd ts)) ->
  playerScores (calculateRoundScores rd ts) !! i = Some 0.
Proof.
  intros Hd Hab Hlt Hi. rewrite bid_failed_scores by done.
  unfold ids in Hi. apply list_elem_of_fmap in Hi as (p & -> & Hp).
  rewrite assignScores_lookup_notin.
  - by rewrite assignScores_lookup_in.
  - apply not_elem_of_ids. intros q Hq. by apply (teams_disjoint_round rd ts).
Qed.

(** The key the code computes is the team the bidder is on. *)
Lemma bidder_on_key ts rd k :
  bidder_on ts rd k ->
  spielmacherTeamKey rd ts = k /\ otherTeamKey rd ts = opposite k /\
  spielmacherTeam rd ts = team_at ts k /\ otherTeam rd ts = team_at ts (opposite k).
Proof.
  intros Hon.
  assert (Hk : spielmacherTeamKey rd ts = k).
  { unfold spielmacherTeamKey.
    destruct (some_id (t_players (team1 ts)) (spielmacherId rd)) eqn:E.
    - apply some_id_true in E. destruct k; [done|]. by destruct Hon.
    - destruct k; [|done]. simpl in Hon. apply some_id_true in Hon. congruence. }
  unfold otherTeamKey, spielmacherTeam, otherTeam, otherTeamKey. rewrite Hk.
  by destruct k.
Qed.

Lemma getTeamMeld_teamMeld rd t : getTeamMeld rd t = teamMeld rd t.
Proof. unfold getTeamMeld, teamMeld. rewrite reduce_sum. lia. Qed.

Lemma getTeamTricks_teamTricks rd t : getTeamTricks rd t = teamTricks rd t.
Proof. unfold getTeamTricks, teamTricks. rewrite reduce_sum. lia. Qed.

Lemma sampleTeams_disjoint : teams_disjoint sampleTeams.
Proof.
  intros p q Hp Hq. simpl in Hp, Hq.
  repeat (apply elem_of_cons in Hp as [->|Hp]);
    repeat (apply elem_of_cons in Hq as [->|Hq]);
    try (by apply elem_of_nil in Hp); try (by apply elem_of_nil in Hq);
    discriminate.
Defined.

(** The abandoned branch, with the two teams named by the key the code
    computes. *)
Lemma abandoned_round_by_key (rd : RoundData) (ts : Teams) :
  gameAbandoned rd = true ->
  let r := calculateRoundScores rd ts in
  (forall p, p ∈ allPlayers ts -> playerScores r !! p_id p = Some 0) /\
  (forall i v, playerScores r !! i = Some v -> v = 0) /\
  roundScore_at r (spielmacherTeamKey rd ts) = - bidValue rd /\
  roundScore_at r (otherTeamKey rd ts) = 0 /\
  reason r = "Spielmacher hat abgebrochen".
Proof.
  intros Hab r.
  assert (Hall : forall i v, playerScores r !! i = Some v -> v = 0)
    by (intros i v; by apply abandoned_scores_zero).
  assert (Hin : forall p, p ∈ allPlayers ts -> playerScores r !! p_id p = Some 0).
  { intros p Hp. destruct (computePlayerScores_total rd ts p Hp) as [v Hv].
    fold r in Hv. rewrite Hv. f_equal. by apply (Hall (p_id p)). }
  repeat split; try done.
  - subst r. rewrite roundScore_at_spielmacher.
    unfold spielmacherTeamRoundScore. by rewrite Hab.
  - subst r. rewrite roundScore_at_other, getTeamScoreFromPlayerScores_sum.
    apply sumZ_all_zero. intros p Hp.
    rewrite Hin; [done|]. apply (elem_of_allPlayers rd). by right.
  - subst r. rewrite reason_eq. unfold computePlayerScores. by rewrite Hab.
Qed.

(** C1. In an abandoned round, for every pair of teams: each player of both
    teams gets the round score 0 (and the dictionary holds no other value),
    the reason is the fixed text, and the team the bidder is on gets minus
    the bid value as its round score while the team facing it gets 0,
    whatever meld and trick points were entered. *)
Theorem abandoned_round (rd : RoundData) (ts : Teams) :
  gameAbandoned rd = true ->
  let r := calculateRoundScores rd ts in
  (forall p, p ∈ allPlayers ts -> playerScores r !! p_id p = Some 0) /\
  (forall i v, playerScores r !! i = Some v -> v = 0) /\
  (forall k, bidder_on ts rd k ->
     roundScore_at r k = - bidValue rd /\ roundScore_at r (opposite k) = 0) /\
  reason r = "Spielmacher hat abgebrochen".
Proof.
  intros Hab r.
  destruct (abandoned_round_by_key rd ts Hab) as (Hin & Hall & Hs & Ho & Hwhy).
  fold r in Hin, Hall, Hs, Ho, Hwhy.
  split; [exact Hin|]. split; [exact Hall|]. split; [|exact Hwhy].
  intros k Hon. destruct (bidder_on_key ts rd k Hon) as (Hk & Hok & _).
  rewrite Hk in Hs. rewrite Hok in Ho. by split.
Qed.

Lemma abandoned_round_witness :
  team2RoundScore (calculateRoundScores roundAbandoned sampleTeams) = -200 /\
  team1RoundScore (calculateRoundScores roundAbandoned sampleTeams) = 0 /\
  team1RoundScore (calculateRoundScores roundAbandonedByAnna sampleTeams) = -200 /\
  team2RoundScore (calculateRoundScores roundAbandonedByAnna sampleTeams) = 0.
Proof.
  assert (Hcleo : bidder_on sampleTeams roundAbandoned key_team2)
    by (split; by apply (bool_decide_unpack _)).
  assert (Hanna : bidder_on sampleTeams roundAbandonedByAnna key_team1)
    by (unfold bidder_on; by apply (bool_decide_unpack _)).
  destruct (abandoned_round roundAbandoned sampleTeams eq_refl) as (_ & _ & H2 & _).
  destruct (abandoned_round roundAbandonedByAnna sampleTeams eq_refl) as (_ & _ & H1 & _).
  destruct (H2 key_team2 Hcleo) as [Ha Hb]. destruct (H1 key_team1 Hanna) as [Hc Hd].
  repeat split; assumption.
Defined.

(** The branch of the failed bid, with the two teams named by the key the
    code computes. *)
Lemma bid_failed_round_by_key (rd : RoundData) (ts : Teams) :
  teams_disjoint ts ->
  gameAbandoned rd = false ->
  getTeamMeld rd (spielmacherTeam rd ts) + getTeamTricks rd (spielmacherTeam rd ts)
    < bidValue rd ->
  let r := calculateRoundScores rd ts in
  (forall p, p ∈ t_players (spielmacherTeam rd ts) ->
             playerScores r !! p_id p = Some 0) /\
  roundScore_at r (spielmacherTeamKey rd ts) = -2 * bidValue rd /\
  roundScore_at r (otherTeamKey rd ts)
  = sumZ (map (fun p => or0 (playerScores r !! p_id p))
              (t_players (otherTeam rd ts))) /\
  (forall p, p ∈ t_players (otherTeam rd ts) ->
             playerScores r !! p_id p
             = Some (if bool_decide (or0 (trickPoints rd !! p_id p) = 0) then 0
                     else or0 (meldValues rd !! p_id p)
                          + or0 (trickPoints rd !! p_id p))).
Proof.
  intros Hd Hab Hlt r.
  pose proof (bid_failed_scores rd ts Hab Hlt) as Hscores. fold r in Hscores.
  repeat split.
  - intros p Hp. apply bid_failed_scores_zero; try done. by apply elem_of_ids.
  - subst r. rewrite roundScore_at_spielmacher. unfold spielmacherTeamRoundScore.
    rewrite Hab. by rewrite bool_decide_eq_true_2.
  - subst r. by rewrite roundScore_at_other, getTeamScoreFromPlayerScores_sum.
  - intros p Hp. rewrite Hscores. by rewrite assignScores_lookup_in.
Qed.

(** C2. In a round that is not abandoned and in which meld plus tricks of the
    team the bidder is on stay below the bid value, for teams that share no
    player id: each player of that team gets the round score 0, the round
    score of that team is minus twice the bid value whatever the team had,
    and the round score of the team facing it is the sum of the round scores
    of its players (each of them scored by the zero-trick rule). *)
Theorem bid_failed_round (rd : RoundData) (ts : Teams) (k : TeamKey) :
  teams_disjoint ts ->
  gameAbandoned rd = false ->
  bidder_on ts rd k ->
  teamMeld rd (team_at ts k) + teamTricks rd (team_at ts k) < bidValue rd ->
  let r := calculateRoundScores rd ts in
  (forall p, p ∈ t_players (team_at ts k) -> playerScores r !! p_id p = Some 0) /\
  roundScore_at r k = -2 * bidValue rd /\
  roundScore_at r (opposite k)
  = sumZ (map (fun p => or0 (playerScores r !! p_id p))
              (t_players (team_at ts (opposite k)))) /\
  (forall p, p ∈ t_players (team_at ts (opposite k)) ->
             playerScores r !! p_id p
             = Some (if bool_decide (or0 (trickPoints rd !! p_id p) = 0) then 0
                     else or0 (meldValues rd !! p_id p)
                          + or0 (trickPoints rd !! p_id p))).
Proof.
  intros Hd Hab Hon Hlt r.
  destruct (bidder_on_key ts rd k Hon) as (Hk & Hok & Hs & Ho).
  assert (Hlt' : getTeamMeld rd (spielmacherTeam rd ts)
                 + getTeamTricks rd (spielmacherTeam rd ts) < bidValue rd)
    by (by rewrite Hs, getTeamMeld_teamMeld, getTeamTricks_teamTricks).
  pose proof (bid_failed_round_by_key rd ts Hd Hab Hlt') as H.
  cbv zeta in H. fold r in H. by rewrite Hk, Hok, Hs, Ho in H.
Qed.

Lemma bid_failed_round_witness :
  team1RoundScore (calculateRoundScores roundBidFailed sampleTeams) = -300 /\
  team2RoundScore (calculateRoundScores roundBidFailedByDirk sampleTeams) = -400 /\
  playerScores (calculateRoundScores roundBidFailedByDirk sampleTeams) !! "player-4"
  = Some 0.
Proof.
  assert (Hanna : bidder_on sampleTeams roundBidFailed key_team1)
    by (unfold bidder_on; by apply (bool_decide_unpack _)).
  assert (Hdirk : bidder_on sampleTeams roundBidFailedByDirk key_team2)
    by (split; by apply (bool_decide_unpack _)).
  destruct (bid_failed_round roundBidFailed sampleTeams key_team1
              sampleTeams_disjoint eq_refl Hanna) as (_ & H1 & _);
    [vm_compute; reflexivity|].
  destruct (bid_failed_round roundBidFailedByDirk sampleTeams key_team2
              sampleTeams_disjoint eq_refl Hdirk) as (H0 & H2 & _);
    [vm_compute; reflexivity|].
  split; [exact H1|]. split; [exact H2|].
  apply (H0 dirk). simpl. right; left.
Defined.

(** The branch of the bid that is made, with the two teams named by the key
    the code computes. *)
Lemma bid_made_round_by_key (rd : RoundData) (ts : Teams) :
  gameAbandoned rd = false ->
  bidValue rd
    <= getTeamMeld rd (spielmacherTeam rd ts) + getTeamTricks rd (spielmacherTeam rd ts) ->
  let r := calculateRoundScores rd ts in
  (forall p, p ∈ allPlayers ts -> or0 (trickPoints rd !! p_id p) = 0 ->
             playerScores r !! p_id p = Some 0) /\
  (forall p, p ∈ allPlayers ts -> or0 (trickPoints rd !! p_id p) <> 0 ->
             playerScores r !! p_id p
             = Some (or0 (meldValues rd !! p_id p) + or0 (trickPoints rd !! p_id p))) /\
  roundScore_at r (spielmacherTeamKey rd ts)
  = sumZ (map (fun p => or0 (playerScores r !! p_id p))
              (t_players (spielmacherTeam rd ts))).
Proof.
  intros Hab Hge r.
  assert (Hrule : forall p, p ∈ allPlayers ts ->
                  playerScores r !! p_id p = Some (zeroTrickRule rd (p_id p))).
  { intros p Hp. subst r. rewrite playerScores_eq. unfold computePlayerScores.
    rewrite Hab. rewrite bool_decide_eq_true_2 by done. simpl.
    apply (elem_of_allPlayers rd) in Hp.
    rewrite !assignScores_lookup. repeat case_decide; try done.
    destruct Hp as [Hp|Hp]; apply elem_of_ids in Hp; done. }
  repeat split.
  - intros p Hp H0. rewrite Hrule by done. unfold zeroTrickRule.
    by rewrite bool_decide_eq_true_2.
  - intros p Hp H0. rewrite Hrule by done. unfold zeroTrickRule.
    by rewrite bool_decide_eq_false_2.
  - subst r. rewrite roundScore_at_spielmacher. unfold spielmacherTeamRoundScore.
    rewrite Hab. rewrite bool_decide_eq_false_2 by lia.
    apply getTeamScoreFromPlayerScores_sum.
Qed.

(** C3. In a round that is not abandoned and in which meld plus tricks of the
    team the bidder is on reach the bid value, every player of both teams is
    scored by one rule: 0 when the player's trick points are 0, whatever the
    meld, and meld plus tricks otherwise; the round score of the team the
    bidder is on is the sum of the round scores of its players. *)
Theorem bid_made_round (rd : RoundData) (ts : Teams) (k : TeamKey) :
  gameAbandoned rd = false ->
  bidder_on ts rd k ->
  bidValue rd <= teamMeld rd (team_at ts k) + teamTricks rd (team_at ts k) ->
  let r := calculateRoundScores rd ts in
  (forall p, p ∈ allPlayers ts -> or0 (trickPoints rd !! p_id p) = 0 ->
             playerScores r !! p_id p = Some 0) /\
  (forall p, p ∈ allPlayers ts -> or0 (trickPoints rd !! p_id p) <> 0 ->
             playerScores r !! p_id p
             = Some (or0 (meldValues rd !! p_id p) + or0 (trickPoints rd !! p_id p))) /\
  roundScore_at r k
  = sumZ (map (fun p => or0 (playerScores r !! p_id p)) (t_players (team_at ts k))).
Proof.
  intros Hab Hon Hge r.
  destruct (bidder_on_key ts rd k Hon) as (Hk & Hok & Hs & Ho).
  assert (Hge' : bidValue rd
                 <= getTeamMeld rd (spielmacherTeam rd ts)
                    + getTeamTricks rd (spielmacherTeam rd ts))
    by (by rewrite Hs, getTeamMeld_teamMeld, getTeamTricks_teamTricks).
  pose proof (bid_made_round_by_key rd ts Hab Hge') as H.
  cbv zeta in H. fold r in H. by rewrite Hk, Hs in H.
Qed.

Lemma bid_made_round_witness :
  playerScores (calculateRoundScores roundBidMade sampleTeams) !! "player-3" = Some 0 /\
  playerScores (calculateRoundScores roundBidMade sampleTeams) !! "player-1" = Some 140 /\
  playerScores (calculateRoundScores roundBidMade sampleTeams) !! "player-4" = Some 110 /\
  playerScores (calculateRoundScores roundBidMadeByCleo sampleTeams) !! "player-1"
  = Some 60 /\
  team2RoundScore (calculateRoundScores roundBidMadeByCleo sampleTeams)
  = sumZ (map (fun p => or0 (playerScores
                               (calculateRoundScores roundBidMadeByCleo sampleTeams)
                             !! p_id p)) [cleo; dirk]).
Proof.
  assert (Hanna : bidder_on sampleTeams roundBidMade key_team1)
    by (unfold bidder_on; by apply (bool_decide_unpack _)).
  assert (Hcleo : bidder_on sampleTeams roundBidMadeByCleo key_team2)
    by (split; by apply (bool_decide_unpack _)).
  destruct (bid_made_round roundBidMade sampleTeams key_team1 eq_refl Hanna)
    as (H0 & H1 & _); [vm_compute; discriminate|].
  destruct (bid_made_round roundBidMadeByCleo sampleTeams key_team2 eq_refl Hcleo)
    as (_ & H1' & Hs); [vm_compute; discriminate|].
  split; [|split; [|split; [|split]]].
  - apply (H0 cleo); [|reflexivity]. unfold allPlayers; simpl. right; right; left.
  - apply (H1 anna); [left|]. vm_compute. discriminate.
  - apply (H1 dirk); [|vm_compute; discriminate].
    unfold allPlayers; simpl. right; right; right; left.
  - apply (H1' anna); [left|]. vm_compute. discriminate.
  - exact Hs.
Defined.

(** * Properties of the game state transitions *)

Lemma with_lifetimeScore_id p : with_lifetimeScore p (p_lifetimeScore p) = p.
Proof. by destruct p. Qed.

Lemma removelast_snoc {A} (l : list A) (x : A) : removelast (l ++ [x]) = l.
Proof. rewrite removelast_app by done. simpl. apply app_nil_r. Qed.

(** The ledger after a round, player by player. *)
Lemma applyRoundToPlayers_spec scores ps :
  applyRoundToPlayers scores ps
  = map (fun p => with_lifetimeScore p (p_lifetimeScore p + or0 (scores !! p_id p))) ps.
Proof.
  unfold applyRoundToPlayers. apply map_ext. intros p.
  destruct (scores !! p_id p) as [v|]; simpl; [done|].
  rewrite Z.add_0_r. by rewrite with_lifetimeScore_id.
Qed.

Lemma revertRoundOnPlayers_spec scores ps :
  revertRoundOnPlayers scores ps
  = map (fun p => with_lifetimeScore p (p_lifetimeScore p - or0 (scores !! p_id p))) ps.
Proof.
  unfold revertRoundOnPlayers. apply map_ext. intros p. simpl.
  case_bool_decide as H; [done|].
  assert (or0 (scores !! p_id p) = 0) as -> by (destruct (decide (or0 (scores !! p_id p) = 0)); done).
  rewrite Z.sub_0_r. by rewrite with_lifetimeScore_id.
Qed.

Lemma revert_apply_players scores ps :
  revertRoundOnPlayers scores (applyRoundToPlayers scores ps) = ps.
Proof.
  rewrite applyRoundToPlayers_spec, revertRoundOnPlayers_spec, map_map.
  rewrite <- (map_id ps) at 2. apply map_ext. intros p. simpl.
  destruct p as [i n l gp w]; unfold with_lifetimeScore; simpl. f_equal. lia.
Qed.

Lemma handleAddRound_activeGame st g rd :
  activeGame st = Some g ->
  activeGame (handleAddRound rd st) = Some (gameAfterRound g rd).
Proof. intros H. unfold handleAddRound. by rewrite H. Qed.

Lemma handleAddRound_players st g rd :
  activeGame st = Some g ->
  players (handleAddRound rd st)
  = applyRoundToPlayers (playerScores (calculateRoundScores rd (teams g))) (players st).
Proof. intros H. unfold handleAddRound. by rewrite H. Qed.

Lemma handleUndoRound_snoc st g h x :
  activeGame st = Some g -> roundHistory g = h ++ [x] ->
  handleUndoRound st
  = set_activeGame
      (set_players st (revertRoundOnPlayers (h_playerScores x) (players st)))
      (Some {| teams :=
                 {| team1 := with_score (team1 (teams g))
                               (t_score (team1 (teams g)) - h_team1RoundScore x);
                    team2 := with_score (team2 (teams g))
                               (t_score (team2 (teams g)) - h_team2RoundScore x) |};
               targetScore := targetScore g;
               roundHistory := h |}).
Proof.
  intros Hg Hh. unfold handleUndoRound. rewrite Hg, Hh.
  rewrite bool_decide_eq_false_2.
  - by rewrite last_snoc, removelast_snoc.
  - rewrite length_app. simpl. lia.
Qed.

Lemma handleUndoRound_empty st :
  (forall g, activeGame st = Some g -> roundHistory g = []) ->
  handleUndoRound st = st.
Proof.
  intros H. unfold handleUndoRound. destruct (activeGame st) as [g|]; [|done].
  by rewrite (H g eq_refl).
Qed.

Lemma undo_add_state st g rd :
  activeGame st = Some g -> handleUndoRound (handleAddRound rd st) = st.
Proof.
  intros Hg.
  rewrite (handleUndoRound_snoc _ (gameAfterRound g rd) (roundHistory g)
             (newRoundHistoryItem g rd));
    [|by apply handleAddRound_activeGame|done].
  rewrite (handleAddRound_players _ g) by done.
  unfold handleAddRound. rewrite Hg. simpl.
  unfold set_activeGame, set_players; simpl.
  rewrite revert_apply_players.
  destruct st as [v ps ag w]; simpl in *. subst ag. f_equal. f_equal.
  destruct g as [[t1 t2] tgt h]; simpl. f_equal. f_equal.
  - destruct t1; unfold with_score; simpl. f_equal. lia.
  - destruct t2; unfold with_score; simpl. f_equal. lia.
Qed.

(** The win-detection effect touches the ledger and the winner only. *)
Lemma handleEndGame_activeGame w st : activeGame (handleEndGame w st) = activeGame st.
Proof. unfold handleEndGame. by destruct (activeGame st) eqn:E. Qed.

Lemma winEffect_activeGame st : activeGame (winEffect st) = activeGame st.
Proof. unfold winEffect. destruct (detectWinner st); [apply handleEndGame_activeGame|done]. Qed.

Lemma scoreboard_winEffect st : scoreboard (winEffect st) = scoreboard st.
Proof. unfold scoreboard. by rewrite winEffect_activeGame. Qed.

(** C4. In an active game, [handleAddRound] appends one round, and
    [handleUndoRound] right after it (with or without the win-detection effect
    running in between) gives back both cumulative team scores and the
    history length, indeed the whole game, whatever the number of earlier
    rounds; on an empty history [handleUndoRound] changes nothing. *)
Theorem undo_inverts_add (st : AppState) (g : GameState) (rd : RoundData) :
  activeGame st = Some g ->
  scoreboard (handleAddRound rd st)
  = Some (t_score (team1 (teams g))
            + team1RoundScore (calculateRoundScores rd (teams g)),
          t_score (team2 (teams g))
            + team2RoundScore (calculateRoundScores rd (teams g)),
          S (length (roundHistory g))) /\
  scoreboard (handleUndoRound (handleAddRound rd st)) = scoreboard st /\
  activeGame (handleUndoRound (handleAddRound rd st)) = Some g /\
  scoreboard (winEffect (handleUndoRound (winEffect (handleAddRound rd st))))
  = scoreboard st /\
  (roundHistory g = [] -> handleUndoRound st = st).
Proof.
  intros Hg. repeat split.
  - unfold scoreboard. rewrite (handleAddRound_activeGame st g) by done. simpl.
    rewrite length_app. simpl. do 2 f_equal. lia.
  - by rewrite (undo_add_state st g).
  - by rewrite (undo_add_state st g).
  - rewrite scoreboard_winEffect.
    pose proof (winEffect_activeGame (handleAddRound rd st)) as Hw.
    rewrite (handleAddRound_activeGame st g) in Hw by done.
    rewrite (handleUndoRound_snoc _ _ (roundHistory g) (newRoundHistoryItem g rd) Hw)
      by done.
    unfold scoreboard; simpl. rewrite Hg.
    destruct g as [[t1 t2] tgt h]; simpl. do 3 f_equal; lia.
  - intros Hh. apply handleUndoRound_empty. intros g' Hg'. congruence.
Qed.

Lemma undo_inverts_add_witness :
  activeGame sampleApp = Some sampleGame /\
  scoreboard (handleAddRound roundBidFailed sampleApp) = Some (-300, 180, 1%nat) /\
  scoreboard (handleUndoRound (handleAddRound roundBidFailed sampleApp))
  = Some (0, 0, 0%nat).
Proof.
  split; [reflexivity|].
  destruct (undo_inverts_add sampleApp sampleGame roundBidFailed eq_refl)
    as (Hadd & Hundo & _).
  split; [exact Hadd | exact Hundo].
Defined.

(** ** Runs of the game *)

Lemma sumZ_snoc l x : sumZ (l ++ [x]) = sumZ l + x.
Proof. induction l as [|y l IH]; simpl; lia. Qed.

Lemma history_ok_add g rd : history_ok g -> history_ok (gameAfterRound g rd).
Proof.
  intros (H1 & H2 & H3). unfold history_ok, gameAfterRound; simpl.
  rewrite !map_app, length_app; simpl. rewrite !sumZ_snoc.
  rewrite Nat.add_1_r, seq_S, map_app, <- H1, <- H2, <- H3. simpl.
  repeat split. do 2 f_equal. lia.
Qed.

Lemma history_ok_undo st g :
  activeGame st = Some g -> history_ok g ->
  exists g', activeGame (handleUndoRound st) = Some g' /\ history_ok g'.
Proof.
  intros Hg Hok.
  destruct (roundHistory g) as [|y l] eqn:Hh using rev_ind.
  - rewrite handleUndoRound_empty; [eauto|]. intros g' Hg'. congruence.
  - clear IHl. rewrite (handleUndoRound_snoc st g l y Hg Hh). simpl.
    eexists. split; [done|]. destruct Hok as (H1 & H2 & H3).
    rewrite Hh in H1, H2, H3. rewrite !map_app in H1, H2.
    rewrite map_app, length_app in H3. simpl in H1, H2, H3.
    rewrite sumZ_snoc in H1, H2.
    rewrite Nat.add_1_r, seq_S, map_app in H3. simpl in H3.
    apply app_inj_tail in H3 as [H3 _].
    unfold history_ok; simpl. repeat split; [lia|lia|done].
Qed.

Lemma step_history_ok st g op :
  activeGame st = Some g -> history_ok g ->
  exists g', activeGame (step st op) = Some g' /\ history_ok g'.
Proof.
  intros Hg Hok. unfold step. rewrite winEffect_activeGame. destruct op as [rd|].
  - exists (gameAfterRound g rd).
    split; [by apply handleAddRound_activeGame | by apply history_ok_add].
  - by apply (history_ok_undo st g).
Qed.

Lemma run_history_ok ops st g :
  activeGame st = Some g -> history_ok g ->
  exists g', activeGame (run ops st) = Some g' /\ history_ok g'.
Proof.
  unfold run. revert st g. induction ops as [|op ops IH]; intros st g Hg Hok; simpl.
  - eauto.
  - destruct (step_history_ok st g op Hg Hok) as (g1 & Hg1 & Hok1).
    by apply (IH _ g1).
Qed.

Lemma freshlyStarted_history_ok st :
  freshlyStarted st -> exists g, activeGame st = Some g /\ history_ok g.
Proof.
  intros (g & Hg & H1 & H2 & Hh). exists g. split; [done|].
  unfold history_ok. by rewrite H1, H2, Hh.
Qed.

(** C5. After any finite sequence of [addRound] and [undoLastRound] on a
    freshly started game there is a game whose two cumulative team scores are
    the sums of the teams' round scores over the entries left in the history
    and whose round numbers are 1, 2, ..., in order; and a further
    [addRound] appends an entry numbered with the new history length. *)
Theorem history_invariant (st0 : AppState) (ops : list Op) :
  freshlyStarted st0 ->
  exists g,
    activeGame (run ops st0) = Some g /\
    t_score (team1 (teams g)) = sumZ (map h_team1RoundScore (roundHistory g)) /\
    t_score (team2 (teams g)) = sumZ (map h_team2RoundScore (roundHistory g)) /\
    map h_round (roundHistory g)
    = map Z.of_nat (seq 1 (length (roundHistory g))) /\
    forall rd, exists g' item,
      activeGame (step (run ops st0) (addRound rd)) = Some g' /\
      roundHistory g' = roundHistory g ++ [item] /\
      h_round item = Z.of_nat (length (roundHistory g')).
Proof.
  intros Hfresh.
  destruct (freshlyStarted_history_ok st0 Hfresh) as (g0 & Hg0 & Hok0).
  destruct (run_history_ok ops st0 g0 Hg0 Hok0) as (g & Hg & H1 & H2 & H3).
  exists g. repeat split; try done.
  intros rd. exists (gameAfterRound g rd), (newRoundHistoryItem g rd).
  unfold step. rewrite winEffect_activeGame.
  rewrite (handleAddRound_activeGame _ g) by done.
  repeat split. simpl. rewrite length_app. simpl. lia.
Qed.

Lemma sampleApp_fresh : freshlyStarted sampleApp.
Proof. exists sampleGame. repeat split. Defined.

Lemma history_invariant_witness :
  exists g,
    activeGame (run [addRound roundBidFailed; addRound roundBidMade; undoLastRound;
                     addRound roundAbandoned] sampleApp) = Some g /\
    t_score (team1 (teams g)) = sumZ (map h_team1RoundScore (roundHistory g)) /\
    t_score (team2 (teams g)) = sumZ (map h_team2RoundScore (roundHistory g)) /\
    map h_round (roundHistory g) = map Z.of_nat (seq 1 (length (roundHistory g))).
Proof.
  destruct (history_invariant sampleApp
              [addRound roundBidFailed; addRound roundBidMade; undoLastRound;
               addRound roundAbandoned] sampleApp_fresh)
    as (g & Hg & H1 & H2 & H3 & _).
  exists g. repeat split; assumption.
Defined.

(** * Errors: what the code reports *)




(** ** Starting a game *)

Section SelectedIds.
Implicit Types l : list string.

Lemma size_list_to_set_le l : (size (list_to_set l : gset string) <= length l)%nat.
Proof.
  induction l as [|x l IH].
  - by rewrite list_to_set_nil, size_empty.
  - rewrite list_to_set_cons, size_union_alt, size_singleton. simpl.
    assert (size (list_to_set l ∖ {[x]} : gset string)
            <= size (list_to_set l : gset string))%nat
      by (apply subseteq_size, elem_of_subseteq; intros y Hy;
          by apply elem_of_difference in Hy as [? _]).
    lia.
Qed.

Lemma size_list_to_set_NoDup l :
  size (list_to_set l : gset string) = length l -> NoDup l.
Proof.
  induction l as [|x l IH]; intros Hsz.
  - constructor.
  - rewrite list_to_set_cons in Hsz. simpl in Hsz.
    destruct (decide (x ∈ l)) as [Hin|Hnin].
    + exfalso.
      assert ({[x]} ∪ list_to_set l = (list_to_set l : gset string)) as Heq.
      { apply set_eq. intros y.
        rewrite elem_of_union, elem_of_singleton, elem_of_list_to_set.
        split; [by intros [->|?] | by right]. }
      rewrite Heq in Hsz. pose proof (size_list_to_set_le l). lia.
    + constructor; [done|]. apply IH.
      rewrite size_union, size_singleton in Hsz by set_solver. lia.
Qed.

(** The gate of [handleStart]: four different, non-empty ids. *)
Lemma selected_four (a b c d : string) :
  size (selectedPlayerIds a b c d) = 4%nat <->
  NoDup [a; b; c; d] /\ (forall s, s ∈ [a; b; c; d] -> s <> "").
Proof.
  unfold selectedPlayerIds. split.
  - intros Hsz.
    pose proof (size_list_to_set_le
                  (filter (fun s : string => s <> "") [a; b; c; d])) as Hle.
    pose proof (length_filter (fun s : string => s <> "") [a; b; c; d]) as Hlf.
    simpl in Hlf.
    assert (Hall : forall s, s ∈ [a; b; c; d] -> s <> "").
    { intros s Hs Hemp.
      pose proof (length_filter_lt (fun s : string => s <> "") [a; b; c; d] s Hs) as Hlt.
      simpl in Hlt. assert (¬ s <> "") as Hn by (intros Hn; by apply Hn).
      specialize (Hlt Hn). lia. }
    split; [|done].
    assert (filter (fun s : string => s <> "") [a; b; c; d] = [a; b; c; d]) as Hf.
    { rewrite !filter_cons_True; [done|..]; apply Hall; set_solver. }
    rewrite Hf in Hsz. by apply size_list_to_set_NoDup.
  - intros [Hnd Hall].
    assert (filter (fun s : string => s <> "") [a; b; c; d] = [a; b; c; d]) as Hf.
    { rewrite !filter_cons_True; [done|..]; apply Hall; set_solver. }
    rewrite Hf. by rewrite size_list_to_set.
Qed.
End SelectedIds.

Lemma findPlayer_Some ps i p : findPlayer ps i = Some p -> p ∈ ps /\ p_id p = i.
Proof.
  unfold findPlayer. intros H. apply find_some in H as [Hin Heq].
  apply bool_decide_eq_true in Heq. split; [by apply list_elem_of_In|done].
Qed.

Lemma findPlayer_in ps i : i ∈ ids ps -> is_Some (findPlayer ps i).
Proof.
  unfold findPlayer, ids. intros H. apply list_elem_of_fmap in H as (p & -> & Hp).
  destruct (find _ ps) eqn:E; [eauto|].
  exfalso. apply list_elem_of_In in Hp.
  pose proof (find_none _ _ E p Hp) as Hn. simpl in Hn.
  by rewrite bool_decide_eq_true_2 in Hn.
Qed.

(** What [handleStart] does once its gate is passed and the four ids are in
    the player list. *)
Lemma handleStart_started (a b c d : string) (target : Z) (st : AppState) :
  NoDup [a; b; c; d] ->
  (forall s, s ∈ [a; b; c; d] -> s <> "") ->
  (forall s, s ∈ [a; b; c; d] -> s ∈ ids (players st)) ->
  exists p1_1 p1_2 p2_1 p2_2,
    p_id p1_1 = a /\ p_id p1_2 = b /\ p_id p2_1 = c /\ p_id p2_2 = d /\
    handleStart a b c d target st
    = Normal (handleStartGame
                {| team1 := {| t_name := p_name p1_1 +:+ " & " +:+ p_name p1_2;
                               t_players := [p1_1; p1_2]; t_score := 0 |};
                   team2 := {| t_name := p_name p2_1 +:+ " & " +:+ p_name p2_2;
                               t_players := [p2_1; p2_2]; t_score := 0 |} |}
                target st).
Proof.
  intros Hnd Hne Hin. unfold handleStart.
  rewrite bool_decide_eq_false_2
    by (intros Hsz; apply Hsz; apply selected_four; by split).
  destruct (findPlayer_in (players st) a) as [p1 H1]; [apply Hin; set_solver|].
  destruct (findPlayer_in (players st) b) as [p2 H2]; [apply Hin; set_solver|].
  destruct (findPlayer_in (players st) c) as [p3 H3]; [apply Hin; set_solver|].
  destruct (findPlayer_in (players st) d) as [p4 H4]; [apply Hin; set_solver|].
  rewrite H1, H2, H3, H4. exists p1, p2, p3, p4.
  apply findPlayer_Some in H1 as [_ ?], H2 as [_ ?], H3 as [_ ?], H4 as [_ ?].
  done.
Qed.

Lemma handleStart_ignored (a b c d : string) (target : Z) (st : AppState) :
  ~ (NoDup [a; b; c; d] /\ (forall s, s ∈ [a; b; c; d] -> s <> "")) ->
  handleStart a b c d target st = Normal st.
Proof.
  intros Hbad. unfold handleStart. rewrite bool_decide_eq_true_2; [done|].
  intros Hsz. by apply Hbad, selected_four.
Qed.

(** A game started by the form is fresh and its teams share no id. *)
Lemma handleStart_fresh a b c d target st st' :
  size (selectedPlayerIds a b c d) = 4%nat ->
  handleStart a b c d target st = Normal st' ->
  freshlyStarted st' /\
  (exists g, activeGame st' = Some g /\ teams_disjoint (teams g)).
Proof.
  intros Hsz Hrun. unfold handleStart in Hrun.
  rewrite bool_decide_eq_false_2 in Hrun by (intros Hn; by apply Hn).
  apply selected_four in Hsz as [Hnd Hne].
  destruct (findPlayer (players st) a) as [p1|] eqn:H1; [|done].
  destruct (findPlayer (players st) b) as [p2|] eqn:H2; [|done].
  destruct (findPlayer (players st) c) as [p3|] eqn:H3; [|done].
  destruct (findPlayer (players st) d) as [p4|] eqn:H4; [|done].
  apply findPlayer_Some in H1 as [_ <-], H2 as [_ <-], H3 as [_ <-], H4 as [_ <-].
  injection Hrun as <-. split.
  - eexists. simpl. repeat split.
  - eexists. split; [done|]. intros p q Hp Hq Heq. simpl in Hp, Hq.
    apply NoDup_cons in Hnd as [Ha Hnd]. apply NoDup_cons in Hnd as [Hb _].
    apply elem_of_cons in Hp as [->|Hp]; [|apply elem_of_cons in Hp as [->|Hp]];
      try (by apply elem_of_nil in Hp);
      (apply elem_of_cons in Hq as [->|Hq]; [|apply elem_of_cons in Hq as [->|Hq]];
       try (by apply elem_of_nil in Hq)); rewrite Heq in *; set_solver.
Qed.

(** No operation changes who is on which team. *)
Lemma step_teams_disjoint st g op :
  activeGame st = Some g -> teams_disjoint (teams g) ->
  exists g', activeGame (step st op) = Some g' /\ teams_disjoint (teams g').
Proof.
  intros Hg Hd. unfold step. rewrite winEffect_activeGame. destruct op as [rd|].
  - rewrite (handleAddRound_activeGame st g rd Hg). eauto.
  - destruct (roundHistory g) as [|y l] eqn:Hh using rev_ind.
    + rewrite handleUndoRound_empty; [eauto|]. intros g' Hg'. congruence.
    + rewrite (handleUndoRound_snoc st g l y Hg Hh). simpl. eauto.
Qed.

(** In every state of a game that the form started, the two teams share no
    player id. *)
Lemma run_teams_disjoint a b c d target st st0 ops :
  size (selectedPlayerIds a b c d) = 4%nat ->
  handleStart a b c d target st = Normal st0 ->
  exists g, activeGame (run ops st0) = Some g /\ teams_disjoint (teams g).
Proof.
  intros Hsz Hrun.
  destruct (handleStart_fresh a b c d target st st0 Hsz Hrun) as [_ (g0 & Hg0 & Hd0)].
  clear Hrun. unfold run. revert st0 g0 Hg0 Hd0.
  induction ops as [|op ops IH]; intros st0 g0 Hg0 Hd0; simpl; [eauto|].
  destruct (step_teams_disjoint st0 g0 op Hg0 Hd0) as (g1 & Hg1 & Hd1).
  by apply (IH _ g1).
Qed.

(** C7, as stated, fails: [handleStartGame] takes a team of one player, a
    team that repeats a player, a team score that is not 0 and a negative
    target score without any error and installs them as given; the form
    starts a game with target score 0, and answers a selection of three ids
    by doing nothing, not by an error. *)
Lemma startGame_not_rejected :
  run_handleStartGame lopsidedTeams (-50) noGameApp <> Throw InvalidInput /\
  activeGame (handleStartGame lopsidedTeams (-50) noGameApp)
  = Some {| teams := lopsidedTeams; targetScore := -50; roundHistory := [] |} /\
  t_score (team1 lopsidedTeams) = 70 /\
  handleStart "player-1" "player-2" "player-3" "player-4" 0 noGameApp
  = Normal (handleStartGame sampleTeams 0 noGameApp) /\
  handleStart "player-1" "player-2" "player-3" "" 1000 noGameApp = Normal noGameApp.
Proof.
  split; [discriminate|]. split; [reflexivity|]. split; [reflexivity|].
  split; vm_compute; reflexivity.
Qed.

(** C7, amended. [handleStartGame] checks nothing and reports no error: for
    any teams and any target score it installs the game with the teams as
    supplied (their scores included), the target score as supplied and an
    empty round history.  The only gate is in its caller, the team selection
    form, and it reports nothing either: unless four different non-empty
    player ids are selected the request is ignored and the state stays as it
    is; with four such ids, all in the player list, it starts a game of two
    teams of two players carrying these ids, both team scores 0, empty
    history and the target score as entered, positive or not. *)
Theorem start_game_gate (a b c d : string) (target : Z) (st : AppState) :
  (forall ts,
     run_handleStartGame ts target st = Normal (handleStartGame ts target st) /\
     activeGame (handleStartGame ts target st)
     = Some {| teams := ts; targetScore := target; roundHistory := [] |}) /\
  handleStart a b c d target st <> Throw InvalidInput /\
  (~ (NoDup [a; b; c; d] /\ (forall s, s ∈ [a; b; c; d] -> s <> "")) ->
   handleStart a b c d target st = Normal st) /\
  (NoDup [a; b; c; d] ->
   (forall s, s ∈ [a; b; c; d] -> s <> "") ->
   (forall s, s ∈ [a; b; c; d] -> s ∈ ids (players st)) ->
   exists st' g,
     handleStart a b c d target st = Normal st' /\
     activeGame st' = Some g /\
     ids (t_players (team1 (teams g))) = [a; b] /\
     ids (t_players (team2 (teams g))) = [c; d] /\
     t_score (team1 (teams g)) = 0 /\
     t_score (team2 (teams g)) = 0 /\
     roundHistory g = [] /\
     targetScore g = target).
Proof.
  split; [done|]. split; [|split].
  - unfold handleStart. case_bool_decide; [done|].
    by repeat (destruct (findPlayer _ _)).
  - apply handleStart_ignored.
  - intros Hnd Hne Hin.
    destruct (handleStart_started a b c d target st Hnd Hne Hin)
      as (p1 & p2 & p3 & p4 & <- & <- & <- & <- & ->).
    eexists _, _. split; [done|]. simpl. repeat split.
Qed.

Lemma start_game_gate_witness :
  (exists st' g,
     handleStart "player-1" "player-2" "player-3" "player-4" 0 noGameApp = Normal st' /\
     activeGame st' = Some g /\
     ids (t_players (team1 (teams g))) = ["player-1"; "player-2"] /\
     ids (t_players (team2 (teams g))) = ["player-3"; "player-4"] /\
     t_score (team1 (teams g)) = 0 /\
     t_score (team2 (teams g)) = 0 /\
     roundHistory g = [] /\
     targetScore g = 0) /\
  handleStart "player-1" "player-1" "player-3" "player-4" 1000 noGameApp
  = Normal noGameApp.
Proof.
  split.
  - apply (start_game_gate "player-1" "player-2" "player-3" "player-4" 0 noGameApp).
    + by apply (bool_decide_unpack _).
    + intros s Hs. repeat (apply elem_of_cons in Hs as [->|Hs]; [discriminate|]).
      by apply elem_of_nil in Hs.
    + intros s Hs. unfold ids; simpl.
      repeat (apply elem_of_cons in Hs as [->|Hs]; [set_solver|]).
      by apply elem_of_nil in Hs.
  - apply (start_game_gate "player-1" "player-1" "player-3" "player-4" 1000 noGameApp).
    intros [Hnd _]. apply NoDup_cons in Hnd as [Hnd _]. apply Hnd. left.
Defined.

(** * Winning *)

Lemma winEffect_winner st g :
  activeGame st = Some g -> winner st = None ->
  winner (winEffect st)
  = if bool_decide (targetScore g <= t_score (team1 (teams g)))
    then Some (team1 (teams g))
    else if bool_decide (targetScore g <= t_score (team2 (teams g)))
         then Some (team2 (teams g))
         else None.
Proof.
  intros Hg Hw. unfold winEffect, detectWinner, handleEndGame. rewrite Hg, Hw.
  repeat case_bool_decide; simpl; done.
Qed.

Lemma handleAddRound_winner rd st : winner (handleAddRound rd st) = winner st.
Proof. unfold handleAddRound. by destruct (activeGame st). Qed.

Lemma handleAddRound_view rd st : view (handleAddRound rd st) = view st.
Proof. unfold handleAddRound. by destruct (activeGame st). Qed.

Lemma handleUndoRound_winner st : winner (handleUndoRound st) = winner st.
Proof.
  unfold handleUndoRound. destruct (activeGame st) as [g|]; [|done].
  case_bool_decide; [done|]. by destruct (last (roundHistory g)).
Qed.

(** C8. In a game in progress (a game is active, no winner yet), once a round
    is added: if both cumulative scores have reached the target score the
    effect selects team1; if only one has, it selects that team; if none has,
    it selects nobody. *)
Theorem win_tie_break (st : AppState) (g : GameState) (rd : RoundData) :
  activeGame st = Some g -> winner st = None ->
  exists g',
    activeGame (handleAddRound rd st) = Some g' /\
    (targetScore g' <= t_score (team1 (teams g')) ->
     targetScore g' <= t_score (team2 (teams g')) ->
     winner (winEffect (handleAddRound rd st)) = Some (team1 (teams g'))) /\
    (targetScore g' <= t_score (team1 (teams g')) ->
     t_score (team2 (teams g')) < targetScore g' ->
     winner (winEffect (handleAddRound rd st)) = Some (team1 (teams g'))) /\
    (t_score (team1 (teams g')) < targetScore g' ->
     targetScore g' <= t_score (team2 (teams g')) ->
     winner (winEffect (handleAddRound rd st)) = Some (team2 (teams g'))) /\
    (t_score (team1 (teams g')) < targetScore g' ->
     t_score (team2 (teams g')) < targetScore g' ->
     winner (winEffect (handleAddRound rd st)) = None).
Proof.
  intros Hg Hw. exists (gameAfterRound g rd).
  pose proof (handleAddRound_activeGame st g rd Hg) as Hg'.
  assert (Hw' : winner (handleAddRound rd st) = None)
    by (by rewrite handleAddRound_winner).
  rewrite (winEffect_winner _ _ Hg' Hw').
  split; [done|].
  repeat split; intros H1 H2; repeat case_bool_decide; try done; lia.
Qed.

Lemma win_tie_break_witness :
  activeGame closeApp = Some closeGame /\ winner closeApp = None /\
  exists g',
    activeGame (handleAddRound roundBidMade closeApp) = Some g' /\
    t_score (team1 (teams g')) = 1070 /\ t_score (team2 (teams g')) = 1060 /\
    winner (winEffect (handleAddRound roundBidMade closeApp)) = Some (team1 (teams g')).
Proof.
  split; [reflexivity|]. split; [reflexivity|].
  destruct (win_tie_break closeApp closeGame roundBidMade eq_refl eq_refl)
    as (g' & Hg' & Hboth & _).
  exists g'. split; [exact Hg'|].
  assert (Hs : t_score (team1 (teams g')) = 1070 /\ t_score (team2 (teams g')) = 1060
               /\ targetScore g' = 1000).
  { vm_compute in Hg'. injection Hg' as <-. repeat split. }
  destruct Hs as (H1 & H2 & Ht).
  split; [exact H1|]. split; [exact H2|].
  apply Hboth; rewrite Ht; [rewrite H1|rewrite H2]; discriminate.
Defined.

(** ** After the win *)

Lemma winEffect_won st w : winner st = Some w -> winEffect st = st.
Proof.
  intros Hw. unfold winEffect, detectWinner. rewrite Hw.
  by destruct (activeGame st).
Qed.

Lemma applyRoundToPlayers_counters scores ps :
  map p_gamesPlayed (applyRoundToPlayers scores ps) = map p_gamesPlayed ps /\
  map p_wins (applyRoundToPlayers scores ps) = map p_wins ps.
Proof.
  unfold applyRoundToPlayers. rewrite !map_map.
  split; apply map_ext; intros p; by destruct (scores !! p_id p).
Qed.

Lemma revertRoundOnPlayers_counters scores ps :
  map p_gamesPlayed (revertRoundOnPlayers scores ps) = map p_gamesPlayed ps /\
  map p_wins (revertRoundOnPlayers scores ps) = map p_wins ps.
Proof.
  unfold revertRoundOnPlayers. rewrite !map_map.
  split; apply map_ext; intros p; simpl; by case_bool_decide.
Qed.

Lemma handleAddRound_counters rd st :
  map p_gamesPlayed (players (handleAddRound rd st)) = map p_gamesPlayed (players st) /\
  map p_wins (players (handleAddRound rd st)) = map p_wins (players st).
Proof.
  unfold handleAddRound. destruct (activeGame st); [|done].
  apply applyRoundToPlayers_counters.
Qed.

Lemma handleUndoRound_counters st :
  map p_gamesPlayed (players (handleUndoRound st)) = map p_gamesPlayed (players st) /\
  map p_wins (players (handleUndoRound st)) = map p_wins (players st).
Proof.
  unfold handleUndoRound. destruct (activeGame st) as [g|]; [|done].
  case_bool_decide; [done|]. destruct (last (roundHistory g)); [|done].
  apply revertRoundOnPlayers_counters.
Qed.

(** Once a winner is set, no operation runs [handleEndGame] again, resets the
    winner or touches a player's games or wins. *)
Lemma step_after_win st w op :
  winner st = Some w ->
  detectWinner st = None /\
  winner (step st op) = Some w /\
  map p_gamesPlayed (players (step st op)) = map p_gamesPlayed (players st) /\
  map p_wins (players (step st op)) = map p_wins (players st).
Proof.
  intros Hw. split.
  { unfold detectWinner. rewrite Hw. by destruct (activeGame st). }
  unfold step. destruct op as [rd|].
  - rewrite (winEffect_won _ w) by (by rewrite handleAddRound_winner).
    rewrite handleAddRound_winner. split; [done|]. apply handleAddRound_counters.
  - rewrite (winEffect_won _ w) by (by rewrite handleUndoRound_winner).
    rewrite handleUndoRound_winner. split; [done|]. apply handleUndoRound_counters.
Qed.

(** X10. Once a winner is set, no sequence of [addRound] and
    [undoLastRound] changes the winner, lets the effect call [handleEndGame]
    again, or changes any player's games or wins: an undo after the win
    takes the score back but not the win. *)
Lemma run_after_win ops st w :
  winner st = Some w ->
  winner (run ops st) = Some w /\
  detectWinner (run ops st) = None /\
  map p_gamesPlayed (players (run ops st)) = map p_gamesPlayed (players st) /\
  map p_wins (players (run ops st)) = map p_wins (players st).
Proof.
  unfold run. revert st. induction ops as [|op ops IH]; intros st Hw; simpl.
  - repeat split; try done. unfold detectWinner. rewrite Hw.
    by destruct (activeGame st).
  - destruct (step_after_win st w op Hw) as (_ & Hw' & Hg & Hwins).
    destruct (IH _ Hw') as (H1 & H2 & H3 & H4).
    repeat split; try done; congruence.
Qed.

(** X11. The ledger update of a win or of a forfeit when the two teams have
    different names: one game more for the players of both teams, one win
    more for those of the winning team, whatever the scores. *)
Lemma handleEndGame_counts st g w :
  activeGame st = Some g ->
  w = team1 (teams g) \/ w = team2 (teams g) ->
  t_name (team1 (teams g)) <> t_name (team2 (teams g)) ->
  winner (handleEndGame w st) = Some w /\
  players (handleEndGame w st)
  = map (fun p =>
           {| p_id := p_id p; p_name := p_name p;
              p_lifetimeScore := p_lifetimeScore p;
              p_gamesPlayed :=
                if some_id (allPlayers (teams g)) (p_id p)
                then p_gamesPlayed p + 1 else p_gamesPlayed p;
              p_wins :=
                if some_id (t_players w) (p_id p)
                then p_wins p + 1 else p_wins p |}) (players st).
Proof.
  intros Hg Hw Hne. unfold handleEndGame. rewrite Hg. simpl. split; [done|].
  unfold recordGameCompletion. apply map_ext. intros p. f_equal.
  unfold allPlayers, some_id, loserTeamOf. rewrite existsb_app.
  destruct Hw as [-> | ->].
  - rewrite bool_decide_eq_true_2 by done.
    by destruct (existsb _ (t_players (team1 (teams g)))).
  - rewrite bool_decide_eq_false_2 by done.
    destruct (existsb _ (t_players (team1 (teams g))));
      by destruct (existsb _ (t_players (team2 (teams g)))).
Qed.

(** ** Two teams of the same name *)

(** C9, at the failing input.  The form starts a game of two teams that both
    come out named "Anna & Bert"; the round takes team2 to 170 of 150 and the
    effect records the win once.  The two players of team2 get a game and a
    win each, the two players of team1 get no game: [handleEndGame] finds the
    losing team by comparing names and takes team2 for it. *)
Theorem same_named_teams_losers_not_counted :
  handleStart "player-1" "player-2" "player-3" "player-4" 150 twinNoGame
  = Normal twinApp /\
  ids <$> (t_players <$> winner (step twinApp (addRound twinRound)))
  = Some ["player-3"; "player-4"] /\
  map (fun p => (p_id p, p_gamesPlayed p, p_wins p))
      (players (step twinApp (addRound twinRound)))
  = [("player-1", 0, 0); ("player-2", 0, 0); ("player-3", 1, 1); ("player-4", 1, 1)].
Proof. repeat split; vm_compute; reflexivity. Qed.

(** * Lifetime scores *)

Lemma winEffect_lifetimeScores st :
  map p_lifetimeScore (players (winEffect st)) = map p_lifetimeScore (players st).
Proof.
  unfold winEffect. destruct (detectWinner st) as [w|]; [|done].
  unfold handleEndGame. destruct (activeGame st) as [g|]; [|done]. simpl.
  unfold recordGameCompletion. by rewrite map_map.
Qed.

Lemma gameAfterRound_score g rd k :
  t_score (team_at (teams (gameAfterRound g rd)) k)
  = t_score (team_at (teams g) k)
    + roundScore_at (calculateRoundScores rd (teams g)) k.
Proof. by destruct k. Qed.

(** The ledger after [handleAddRound], with the bidder's team named by the
    key the code computes. *)
Lemma addRound_lifetime_scores_by_key (st : AppState) (g : GameState) (rd : RoundData) :
  activeGame st = Some g ->
  exists g',
    activeGame (handleAddRound rd st) = Some g' /\
    players (handleAddRound rd st)
    = map (fun p =>
             {| p_id := p_id p; p_name := p_name p;
                p_lifetimeScore :=
                  p_lifetimeScore p
                  + or0 (playerScores (calculateRoundScores rd (teams g)) !! p_id p);
                p_gamesPlayed := p_gamesPlayed p; p_wins := p_wins p |})
          (players st) /\
    view (handleAddRound rd st) = view st /\
    winner (handleAddRound rd st) = winner st /\
    map p_lifetimeScore (players (step st (addRound rd)))
    = map p_lifetimeScore (players (handleAddRound rd st)) /\
    (gameAbandoned rd = true ->
     players (handleAddRound rd st) = players st /\
     t_score (team_at (teams g') (spielmacherTeamKey rd (teams g)))
     = t_score (team_at (teams g) (spielmacherTeamKey rd (teams g))) - bidValue rd) /\
    (gameAbandoned rd = false ->
     getTeamMeld rd (spielmacherTeam rd (teams g))
       + getTeamTricks rd (spielmacherTeam rd (teams g)) < bidValue rd ->
     teams_disjoint (teams g) ->
     (forall k p, players st !! k = Some p ->
                  p_id p ∈ ids (t_players (spielmacherTeam rd (teams g))) ->
                  players (handleAddRound rd st) !! k = Some p) /\
     t_score (team_at (teams g') (spielmacherTeamKey rd (teams g)))
     = t_score (team_at (teams g) (spielmacherTeamKey rd (teams g)))
       - 2 * bidValue rd).
Proof.
  intros Hg. exists (gameAfterRound g rd).
  split; [by apply handleAddRound_activeGame|].
  pose proof (handleAddRound_players st g rd Hg) as Hps.
  rewrite applyRoundToPlayers_spec in Hps.
  split; [exact Hps|]. split; [apply handleAddRound_view|].
  split; [apply handleAddRound_winner|].
  split; [apply winEffect_lifetimeScores|]. rewrite Hps. split.
  - intros Hab. split.
    + rewrite <- (map_id (players st)) at 2. apply map_ext. intros p.
      destruct (playerScores (calculateRoundScores rd (teams g)) !! p_id p)
        as [v|] eqn:E; simpl.
      * rewrite (abandoned_scores_zero rd (teams g) _ v Hab E), Z.add_0_r.
        apply with_lifetimeScore_id.
      * rewrite Z.add_0_r. apply with_lifetimeScore_id.
    + rewrite gameAfterRound_score, roundScore_at_spielmacher.
      unfold spielmacherTeamRoundScore. rewrite Hab. lia.
  - intros Hab Hlt Hd. split.
    + intros k p Hk Hp. rewrite list_lookup_fmap, Hk. simpl.
      rewrite (bid_failed_scores_zero rd (teams g) (p_id p) Hd Hab Hlt Hp). simpl.
      rewrite Z.add_0_r. f_equal. apply with_lifetimeScore_id.
    + rewrite gameAfterRound_score, roundScore_at_spielmacher.
      unfold spielmacherTeamRoundScore. rewrite Hab.
      rewrite bool_decide_eq_true_2 by done. lia.
Qed.

(** C10. [handleAddRound] adds to the lifetime score of each player of the
    ledger that player's entry of the computed [playerScores] (nothing for a
    player without entry) and changes nothing else of the ledger, the view or
    the winner; the effect that runs after it leaves the lifetime scores
    alone.  Hence an abandoned round leaves the whole ledger as it is while
    the team the bidder is on loses the bid value, and a failed bid (teams
    sharing no id) leaves the players of the team the bidder is on as they
    are while that team loses twice the bid value. *)
Theorem addRound_lifetime_scores (st : AppState) (g : GameState) (rd : RoundData) :
  activeGame st = Some g ->
  exists g',
    activeGame (handleAddRound rd st) = Some g' /\
    players (handleAddRound rd st)
    = map (fun p =>
             {| p_id := p_id p; p_name := p_name p;
                p_lifetimeScore :=
                  p_lifetimeScore p
                  + or0 (playerScores (calculateRoundScores rd (teams g)) !! p_id p);
                p_gamesPlayed := p_gamesPlayed p; p_wins := p_wins p |})
          (players st) /\
    view (handleAddRound rd st) = view st /\
    winner (handleAddRound rd st) = winner st /\
    map p_lifetimeScore (players (step st (addRound rd)))
    = map p_lifetimeScore (players (handleAddRound rd st)) /\
    (gameAbandoned rd = true ->
     players (handleAddRound rd st) = players st /\
     forall k, bidder_on (teams g) rd k ->
       t_score (team_at (teams g') k)
       = t_score (team_at (teams g) k) - bidValue rd) /\
    (gameAbandoned rd = false ->
     teams_disjoint (teams g) ->
     forall k, bidder_on (teams g) rd k ->
       teamMeld rd (team_at (teams g) k) + teamTricks rd (team_at (teams g) k)
         < bidValue rd ->
       (forall i p, players st !! i = Some p ->
                    p_id p ∈ ids (t_players (team_at (teams g) k)) ->
                    players (handleAddRound rd st) !! i = Some p) /\
       t_score (team_at (teams g') k)
       = t_score (team_at (teams g) k) - 2 * bidValue rd).
Proof.
  intros Hg.
  destruct (addRound_lifetime_scores_by_key st g rd Hg)
    as (g' & Hg' & Hps & Hview & Hwin & Heff & Habandoned & Hfailed).
  exists g'. split; [exact Hg'|]. split; [exact Hps|]. split; [exact Hview|].
  split; [exact Hwin|]. split; [exact Heff|]. split.
  - intros Hab. destruct (Habandoned Hab) as [Hsame Hscore].
    split; [exact Hsame|]. intros k Hon.
    destruct (bidder_on_key (teams g) rd k Hon) as (Hk & _).
    by rewrite Hk in Hscore.
  - intros Hab Hd k Hon Hlt.
    destruct (bidder_on_key (teams g) rd k Hon) as (Hk & _ & Hs & _).
    assert (Hlt' : getTeamMeld rd (spielmacherTeam rd (teams g))
                   + getTeamTricks rd (spielmacherTeam rd (teams g)) < bidValue rd)
      by (by rewrite Hs, getTeamMeld_teamMeld, getTeamTricks_teamTricks).
    destruct (Hfailed Hab Hlt' Hd) as [Hkeep Hscore].
    rewrite Hk in Hscore. rewrite Hs in Hkeep. by split.
Qed.

Lemma addRound_lifetime_scores_witness :
  activeGame seasonedApp = Some sampleGame /\
  map p_lifetimeScore (players (handleAddRound roundBidFailed seasonedApp))
  = [500; 420; 680; 490] /\
  players (handleAddRound roundAbandoned seasonedApp) = players seasonedApp /\
  players (handleAddRound roundBidFailedByDirk seasonedApp) !! 3%nat
  = Some (mkPlayer "player-4" "Dirk" 380 3 2) /\
  exists g', activeGame (handleAddRound roundBidFailedByDirk seasonedApp) = Some g' /\
             t_score (team2 (teams g')) = -400.
Proof.
  split; [reflexivity|].
  destruct (addRound_lifetime_scores seasonedApp sampleGame roundBidFailed eq_refl)
    as (g1 & _ & Hps & _).
  destruct (addRound_lifetime_scores seasonedApp sampleGame roundAbandoned eq_refl)
    as (g2 & _ & _ & _ & _ & _ & Hab & _).
  destruct (addRound_lifetime_scores seasonedApp sampleGame roundBidFailedByDirk eq_refl)
    as (g3 & Hg3 & _ & _ & _ & _ & _ & Hfailed).
  assert (Hdirk : bidder_on (teams sampleGame) roundBidFailedByDirk key_team2)
    by (split; by apply (bool_decide_unpack _)).
  destruct (Hfailed eq_refl sampleTeams_disjoint key_team2 Hdirk) as [Hkeep Hscore];
    [vm_compute; reflexivity|].
  split; [rewrite Hps; vm_compute; reflexivity|].
  split; [exact (proj1 (Hab eq_refl))|].
  split.
  - apply (Hkeep 3%nat); [reflexivity|]. simpl. right; left.
  - exists g3. split; [exact Hg3|]. exact Hscore.
Defined.

(** * Further properties of the scoring logic *)

Section Sums.
Context {A : Type}.

Lemma sumZ_map_ext (f g : A -> Z) (l : list A) :
  (forall x, x ∈ l -> f x = g x) -> sumZ (map f l) = sumZ (map g l).
Proof.
  induction l as [|x l IH]; intros H; simpl; [done|].
  rewrite (H x) by left. rewrite IH; [done|]. intros y Hy. apply H. by right.
Qed.

Lemma sumZ_map_le (f g : A -> Z) (l : list A) :
  (forall x, x ∈ l -> f x <= g x) -> sumZ (map f l) <= sumZ (map g l).
Proof.
  induction l as [|x l IH]; intros H; simpl; [lia|].
  pose proof (H x ltac:(left)).
  assert (sumZ (map f l) <= sumZ (map g l)) by (apply IH; intros y Hy; apply H; by right).
  lia.
Qed.

Lemma sumZ_map_add (f g : A -> Z) (l : list A) :
  sumZ (map (fun x => f x + g x) l) = sumZ (map f l) + sumZ (map g l).
Proof. induction l as [|x l IH]; simpl; lia. Qed.

End Sums.

Lemma sumZ_app l k : sumZ (l ++ k) = sumZ l + sumZ k.
Proof. induction l as [|x l IH]; simpl; lia. Qed.

Lemma getTeamMeld_sum rd t :
  getTeamMeld rd t = sumZ (map (fun p => or0 (meldValues rd !! p_id p)) (t_players t)).
Proof. unfold getTeamMeld. rewrite reduce_sum. lia. Qed.

Lemma getTeamTricks_sum rd t :
  getTeamTricks rd t = sumZ (map (fun p => or0 (trickPoints rd !! p_id p)) (t_players t)).
Proof. unfold getTeamTricks. rewrite reduce_sum. lia. Qed.

Lemma elem_of_ids_allPlayers rd ts i :
  i ∈ ids (allPlayers ts) <->
  i ∈ ids (t_players (spielmacherTeam rd ts)) \/ i ∈ ids (t_players (otherTeam rd ts)).
Proof.
  unfold allPlayers, ids, spielmacherTeam, otherTeam, otherTeamKey.
  rewrite map_app, elem_of_app. destruct (spielmacherTeamKey rd ts); simpl; tauto.
Qed.

(** In a round that is not abandoned the other team is scored by the
    zero-trick rule, and so are all players when the bid is made. *)
Lemma other_team_scores rd ts p :
  gameAbandoned rd = false ->
  p ∈ t_players (otherTeam rd ts) ->
  playerScores (calculateRoundScores rd ts) !! p_id p
  = Some (zeroTrickRule rd (p_id p)).
Proof.
  intros Hab Hp. rewrite playerScores_eq. unfold computePlayerScores. rewrite Hab.
  case_bool_decide; simpl; by rewrite assignScores_lookup_in.
Qed.

Lemma bid_made_scores rd ts p :
  gameAbandoned rd = false ->
  bidValue rd
    <= getTeamMeld rd (spielmacherTeam rd ts) + getTeamTricks rd (spielmacherTeam rd ts) ->
  p ∈ allPlayers ts ->
  playerScores (calculateRoundScores rd ts) !! p_id p
  = Some (zeroTrickRule rd (p_id p)).
Proof.
  intros Hab Hge Hp. rewrite playerScores_eq. unfold computePlayerScores.
  rewrite Hab. rewrite bool_decide_eq_true_2 by done. simpl.
  apply (elem_of_allPlayers rd) in Hp.
  rewrite !assignScores_lookup.
  destruct (decide (p_id p ∈ ids (t_players (otherTeam rd ts)))); [done|].
  destruct (decide (p_id p ∈ ids (t_players (spielmacherTeam rd ts)))); [done|].
  destruct Hp as [Hp|Hp]; apply elem_of_ids in Hp; done.
Qed.

(** X1. [playerScores] has an entry for the id of every player of the two
    teams and for no other key. *)
Theorem playerScores_keys (rd : RoundData) (ts : Teams) (i : string) :
  is_Some (playerScores (calculateRoundScores rd ts) !! i) <->
  i ∈ ids (allPlayers ts).
Proof.
  rewrite (elem_of_ids_allPlayers rd), playerScores_eq. unfold computePlayerScores.
  destruct (gameAbandoned rd); [|case_bool_decide]; simpl;
    rewrite !assignScores_lookup;
    destruct (decide (i ∈ ids (t_players (otherTeam rd ts))));
    destruct (decide (i ∈ ids (t_players (spielmacherTeam rd ts))));
    rewrite ?lookup_empty; split; intros Hi; eauto;
    try (by destruct Hi as [? Hi]); by destruct Hi.
Qed.

Lemma some_id_ids ps ps' i : ids ps = ids ps' -> some_id ps i = some_id ps' i.
Proof.
  intros H. apply Bool.eq_iff_eq_true. rewrite !some_id_true. by rewrite H.
Qed.

Lemma foldl_ids {A} (g : A -> string -> A) (a : A) ps ps' :
  ids ps = ids ps' ->
  foldl (fun acc p => g acc (p_id p)) a ps = foldl (fun acc p => g acc (p_id p)) a ps'.
Proof.
  intros H.
  assert (Hfold : forall l b,
             foldl (fun acc p => g acc (p_id p)) b l = foldl g b (ids l)).
  { induction l as [|p l IH]; intros b; simpl; [done|]. apply IH. }
  by rewrite !Hfold, H.
Qed.

Lemma same_ids_round rd ts ts' :
  same_ids ts ts' ->
  spielmacherTeamKey rd ts = spielmacherTeamKey rd ts' /\
  ids (t_players (spielmacherTeam rd ts)) = ids (t_players (spielmacherTeam rd ts')) /\
  ids (t_players (otherTeam rd ts)) = ids (t_players (otherTeam rd ts')).
Proof.
  intros [H1 H2].
  assert (Hk : spielmacherTeamKey rd ts = spielmacherTeamKey rd ts')
    by (unfold spielmacherTeamKey; by rewrite (some_id_ids _ _ _ H1)).
  split; [done|]. unfold spielmacherTeam, otherTeam, otherTeamKey. rewrite <- Hk.
  by destruct (spielmacherTeamKey rd ts).
Qed.

Lemma calculateRoundScores_same_ids rd ts ts' :
  same_ids ts ts' -> calculateRoundScores rd ts = calculateRoundScores rd ts'.
Proof.
  intros Hsame. destruct (same_ids_round rd ts ts' Hsame) as (Hk & Hs & Ho).
  assert (Hmeld : getTeamMeld rd (spielmacherTeam rd ts)
                  = getTeamMeld rd (spielmacherTeam rd ts'))
    by (apply (foldl_ids (fun sum i => sum + or0 (meldValues rd !! i))); done).
  assert (Htricks : getTeamTricks rd (spielmacherTeam rd ts)
                    = getTeamTricks rd (spielmacherTeam rd ts'))
    by (apply (foldl_ids (fun sum i => sum + or0 (trickPoints rd !! i))); done).
  assert (Hassign : forall f t t' scores,
             ids (t_players t) = ids (t_players t') ->
             assignScores f (t_players t) scores = assignScores f (t_players t') scores)
    by (intros f t t' scores H;
        apply (foldl_ids (fun acc i => <[i := f i]> acc)); done).
  assert (Hfrom : forall scores t t',
             ids (t_players t) = ids (t_players t') ->
             getTeamScoreFromPlayerScores scores t = getTeamScoreFromPlayerScores scores t')
    by (intros scores t t' H;
        apply (foldl_ids (fun sum i => sum + or0 (scores !! i))); done).
  assert (Hcomp : computePlayerScores rd ts = computePlayerScores rd ts').
  { unfold computePlayerScores. rewrite Hmeld, Htricks.
    rewrite !(Hassign _ (spielmacherTeam rd ts) (spielmacherTeam rd ts')) by done.
    destruct (gameAbandoned rd); [|case_bool_decide];
      by rewrite !(Hassign _ (otherTeam rd ts) (otherTeam rd ts')) by done. }
  unfold calculateRoundScores, spielmacherTeamRoundScore.
  rewrite Hcomp, Hk, Hmeld, Htricks.
  destruct (computePlayerScores rd ts') as [scores why].
  rewrite (Hfrom scores (spielmacherTeam rd ts) (spielmacherTeam rd ts')) by done.
  by rewrite (Hfrom scores (otherTeam rd ts) (otherTeam rd ts')) by done.
Qed.

(** X2. The result of [calculateRoundScores] depends on the teams through
    the ids of their players only: names, statistics and team scores play no
    part. *)
Theorem calculateRoundScores_ids_only (rd : RoundData) (ts ts' : Teams) :
  ids (t_players (team1 ts)) = ids (t_players (team1 ts')) ->
  ids (t_players (team2 ts)) = ids (t_players (team2 ts')) ->
  calculateRoundScores rd ts = calculateRoundScores rd ts'.
Proof. intros H1 H2. by apply calculateRoundScores_same_ids. Qed.

Lemma calculateRoundScores_ids_only_witness :
  calculateRoundScores roundBidMade sampleTeams
  = calculateRoundScores roundBidMade (teams closeGame).
Proof.
  apply (calculateRoundScores_ids_only roundBidMade sampleTeams (teams closeGame));
    reflexivity.
Defined.

Lemma zeroTrickRule_full rd i :
  or0 (trickPoints rd !! i) <> 0 ->
  zeroTrickRule rd i = or0 (meldValues rd !! i) + or0 (trickPoints rd !! i).
Proof. intros H. unfold zeroTrickRule. by rewrite bool_decide_eq_false_2. Qed.

(** Full credit when every player took a trick, with the two teams named by
    the key the code computes. *)
Lemma full_credit_by_key (rd : RoundData) (ts : Teams) :
  gameAbandoned rd = false ->
  (forall p, p ∈ allPlayers ts -> or0 (trickPoints rd !! p_id p) <> 0) ->
  let r := calculateRoundScores rd ts in
  roundScore_at r (otherTeamKey rd ts)
  = getTeamMeld rd (otherTeam rd ts) + getTeamTricks rd (otherTeam rd ts) /\
  (bidValue rd
     <= getTeamMeld rd (spielmacherTeam rd ts) + getTeamTricks rd (spielmacherTeam rd ts) ->
   roundScore_at r (spielmacherTeamKey rd ts)
   = getTeamMeld rd (spielmacherTeam rd ts) + getTeamTricks rd (spielmacherTeam rd ts) /\
   bidValue rd <= roundScore_at r (spielmacherTeamKey rd ts)).
Proof.
  intros Hab Hall r. subst r. split.
  - rewrite roundScore_at_other, getTeamScoreFromPlayerScores_sum.
    rewrite getTeamMeld_sum, getTeamTricks_sum, <- sumZ_map_add.
    apply sumZ_map_ext. intros p Hp.
    rewrite (other_team_scores rd ts p Hab Hp). simpl.
    apply zeroTrickRule_full, Hall, (elem_of_allPlayers rd). by right.
  - intros Hge.
    assert (Heq : roundScore_at (calculateRoundScores rd ts) (spielmacherTeamKey rd ts)
                  = getTeamMeld rd (spielmacherTeam rd ts)
                    + getTeamTricks rd (spielmacherTeam rd ts)).
    { rewrite roundScore_at_spielmacher. unfold spielmacherTeamRoundScore.
      rewrite Hab. rewrite bool_decide_eq_false_2 by lia.
      rewrite getTeamScoreFromPlayerScores_sum.
      rewrite getTeamMeld_sum, getTeamTricks_sum, <- sumZ_map_add.
      apply sumZ_map_ext. intros p Hp.
      assert (p ∈ allPlayers ts) as Hin by (apply (elem_of_allPlayers rd); by left).
      rewrite (bid_made_scores rd ts p Hab Hge Hin).
      simpl. by apply zeroTrickRule_full, Hall. }
    split; [exact Heq | by rewrite Heq].
Qed.

(** X3. In a round that is not abandoned and in which every player took a
    trick, the round score of the team facing the bidder's is its meld plus
    its tricks, and when the team the bidder is on makes the bid its round
    score is its meld plus tricks too, which is then at least the bid
    value. *)
Theorem full_credit (rd : RoundData) (ts : Teams) (k : TeamKey) :
  gameAbandoned rd = false ->
  (forall p, p ∈ allPlayers ts -> or0 (trickPoints rd !! p_id p) <> 0) ->
  bidder_on ts rd k ->
  let r := calculateRoundScores rd ts in
  roundScore_at r (opposite k)
  = teamMeld rd (team_at ts (opposite k)) + teamTricks rd (team_at ts (opposite k)) /\
  (bidValue rd <= teamMeld rd (team_at ts k) + teamTricks rd (team_at ts k) ->
   roundScore_at r k = teamMeld rd (team_at ts k) + teamTricks rd (team_at ts k) /\
   bidValue rd <= roundScore_at r k).
Proof.
  intros Hab Hall Hon r.
  destruct (bidder_on_key ts rd k Hon) as (Hk & Hok & Hs & Ho).
  destruct (full_credit_by_key rd ts Hab Hall) as [Hother Hbid]. fold r in Hother, Hbid.
  rewrite Hk, Hs, !getTeamMeld_teamMeld, !getTeamTricks_teamTricks in Hbid.
  rewrite Hok, Ho, getTeamMeld_teamMeld, getTeamTricks_teamTricks in Hother.
  by split.
Qed.

Lemma full_credit_witness :
  team2RoundScore (calculateRoundScores roundAllTricks sampleTeams) = 130 /\
  team1RoundScore (calculateRoundScores roundAllTricks sampleTeams) = 170 /\
  team1RoundScore (calculateRoundScores roundBidMadeByCleo sampleTeams) = 90 /\
  team2RoundScore (calculateRoundScores roundBidMadeByCleo sampleTeams) = 250.
Proof.
  assert (Hall : forall p, p ∈ allPlayers sampleTeams ->
                           or0 (trickPoints roundAllTricks !! p_id p) <> 0).
  { intros p Hp. unfold allPlayers in Hp. simpl in Hp.
    repeat (apply elem_of_cons in Hp as [->|Hp]; [vm_compute; discriminate|]).
    by apply elem_of_nil in Hp. }
  assert (Hall' : forall p, p ∈ allPlayers sampleTeams ->
                            or0 (trickPoints roundBidMadeByCleo !! p_id p) <> 0).
  { intros p Hp. unfold allPlayers in Hp. simpl in Hp.
    repeat (apply elem_of_cons in Hp as [->|Hp]; [vm_compute; discriminate|]).
    by apply elem_of_nil in Hp. }
  assert (Hanna : bidder_on sampleTeams roundAllTricks key_team1)
    by (unfold bidder_on; by apply (bool_decide_unpack _)).
  assert (Hcleo : bidder_on sampleTeams roundBidMadeByCleo key_team2)
    by (split; by apply (bool_decide_unpack _)).
  destruct (full_credit roundAllTricks sampleTeams key_team1 eq_refl Hall Hanna)
    as [Ho Hs].
  destruct (full_credit roundBidMadeByCleo sampleTeams key_team2 eq_refl Hall' Hcleo)
    as [Ho' Hs'].
  split; [exact Ho|]. split; [apply Hs; vm_compute; discriminate|].
  split; [exact Ho'|]. apply Hs'. vm_compute. discriminate.
Defined.

Lemma or0_nonneg (m : gmap string Z) i :
  map_Forall (fun _ v => 0 <= v) m -> 0 <= or0 (m !! i).
Proof.
  intros H. destruct (m !! i) as [v|] eqn:E; simpl; [|done]. by apply (H i).
Qed.

Lemma zeroTrickRule_bounds rd i :
  map_Forall (fun _ v => 0 <= v) (meldValues rd) ->
  map_Forall (fun _ v => 0 <= v) (trickPoints rd) ->
  0 <= zeroTrickRule rd i <= or0 (meldValues rd !! i) + or0 (trickPoints rd !! i).
Proof.
  intros Hm Ht. pose proof (or0_nonneg _ i Hm). pose proof (or0_nonneg _ i Ht).
  unfold zeroTrickRule. case_bool_decide; lia.
Qed.

Lemma assignScores_Forall (P : Z -> Prop) f ps scores :
  (forall i, P (f i)) ->
  map_Forall (fun _ v => P v) scores ->
  map_Forall (fun _ v => P v) (assignScores f ps scores).
Proof.
  intros Hf Hs i v. rewrite assignScores_lookup.
  destruct (decide (i ∈ ids ps)); [intros [= <-]; apply Hf|apply Hs].
Qed.

Lemma sumZ_map_nonneg {A} (f : A -> Z) (l : list A) :
  (forall x, x ∈ l -> 0 <= f x) -> 0 <= sumZ (map f l).
Proof.
  induction l as [|x l IH]; intros H; simpl; [lia|].
  pose proof (H x ltac:(left)).
  assert (0 <= sumZ (map f l)) by (apply IH; intros y Hy; apply H; by right).
  lia.
Qed.

Lemma playerScores_nonneg rd ts :
  map_Forall (fun _ v => 0 <= v) (meldValues rd) ->
  map_Forall (fun _ v => 0 <= v) (trickPoints rd) ->
  map_Forall (fun _ v => 0 <= v) (playerScores (calculateRoundScores rd ts)).
Proof.
  intros Hm Ht. rewrite playerScores_eq. unfold computePlayerScores.
  assert (Hrule : forall i, 0 <= zeroTrickRule rd i)
    by (intros i; by apply zeroTrickRule_bounds).
  destruct (gameAbandoned rd); [|case_bool_decide]; simpl;
    repeat (apply assignScores_Forall; [done|]); apply map_Forall_empty.
Qed.

(** Scores that are not negative, with the two teams named by the key the
    code computes. *)
Lemma round_scores_nonneg_by_key (rd : RoundData) (ts : Teams) :
  map_Forall (fun _ v => 0 <= v) (meldValues rd) ->
  map_Forall (fun _ v => 0 <= v) (trickPoints rd) ->
  let r := calculateRoundScores rd ts in
  map_Forall (fun _ v => 0 <= v) (playerScores r) /\
  0 <= roundScore_at r (otherTeamKey rd ts) /\
  (gameAbandoned rd = false ->
   bidValue rd
     <= getTeamMeld rd (spielmacherTeam rd ts) + getTeamTricks rd (spielmacherTeam rd ts) ->
   0 <= roundScore_at r (spielmacherTeamKey rd ts)
     <= getTeamMeld rd (spielmacherTeam rd ts) + getTeamTricks rd (spielmacherTeam rd ts)).
Proof.
  intros Hm Ht r. subst r.
  pose proof (playerScores_nonneg rd ts Hm Ht) as Hps.
  split; [done|]. split.
  - rewrite roundScore_at_other, getTeamScoreFromPlayerScores_sum.
    apply sumZ_map_nonneg. intros p _. by apply or0_nonneg.
  - intros Hab Hge. rewrite roundScore_at_spielmacher.
    unfold spielmacherTeamRoundScore. rewrite Hab.
    rewrite bool_decide_eq_false_2 by lia.
    rewrite getTeamScoreFromPlayerScores_sum. split.
    + apply sumZ_map_nonneg. intros p _. by apply or0_nonneg.
    + rewrite getTeamMeld_sum, getTeamTricks_sum, <- sumZ_map_add.
      apply sumZ_map_le. intros p Hp.
      assert (p ∈ allPlayers ts) as Hin by (apply (elem_of_allPlayers rd); by left).
      rewrite (bid_made_scores rd ts p Hab Hge Hin). simpl.
      by apply zeroTrickRule_bounds.
Qed.

(** X4. With meld and trick points that are not negative no player gets a
    negative round score, the round score of the team facing the bidder's is
    not negative, and when the team the bidder is on makes the bid its round
    score lies between 0 and its meld plus tricks: only the two penalties
    take a team's score down, and only for the team the bidder is on. *)
Theorem round_scores_nonneg (rd : RoundData) (ts : Teams) :
  map_Forall (fun _ v => 0 <= v) (meldValues rd) ->
  map_Forall (fun _ v => 0 <= v) (trickPoints rd) ->
  let r := calculateRoundScores rd ts in
  map_Forall (fun _ v => 0 <= v) (playerScores r) /\
  forall k, bidder_on ts rd k ->
    0 <= roundScore_at r (opposite k) /\
    (gameAbandoned rd = false ->
     bidValue rd <= teamMeld rd (team_at ts k) + teamTricks rd (team_at ts k) ->
     0 <= roundScore_at r k
       <= teamMeld rd (team_at ts k) + teamTricks rd (team_at ts k)).
Proof.
  intros Hm Ht r.
  destruct (round_scores_nonneg_by_key rd ts Hm Ht) as (Hps & Hother & Hbid).
  fold r in Hps, Hother, Hbid. split; [exact Hps|].
  intros k Hon. destruct (bidder_on_key ts rd k Hon) as (Hk & Hok & Hs & Ho).
  rewrite Hok in Hother.
  rewrite Hk, Hs, !getTeamMeld_teamMeld, !getTeamTricks_teamTricks in Hbid.
  by split.
Qed.

Lemma round_scores_nonneg_witness :
  0 <= team2RoundScore (calculateRoundScores roundBidMade sampleTeams) /\
  0 <= team1RoundScore (calculateRoundScores roundBidMade sampleTeams) <= 170 /\
  0 <= team1RoundScore (calculateRoundScores roundBidMadeByCleo sampleTeams).
Proof.
  assert (Hm : map_Forall (fun _ v => 0 <= v) (meldValues roundBidMade)).
  { apply (bool_decide_unpack _). vm_compute. exact I. }
  assert (Ht : map_Forall (fun _ v => 0 <= v) (trickPoints roundBidMade)).
  { apply (bool_decide_unpack _). vm_compute. exact I. }
  assert (Hm' : map_Forall (fun _ v => 0 <= v) (meldValues roundBidMadeByCleo)).
  { apply (bool_decide_unpack _). vm_compute. exact I. }
  assert (Ht' : map_Forall (fun _ v => 0 <= v) (trickPoints roundBidMadeByCleo)).
  { apply (bool_decide_unpack _). vm_compute. exact I. }
  assert (Hanna : bidder_on sampleTeams roundBidMade key_team1)
    by (unfold bidder_on; by apply (bool_decide_unpack _)).
  assert (Hcleo : bidder_on sampleTeams roundBidMadeByCleo key_team2)
    by (split; by apply (bool_decide_unpack _)).
  destruct (round_scores_nonneg roundBidMade sampleTeams Hm Ht) as [_ H1].
  destruct (round_scores_nonneg roundBidMadeByCleo sampleTeams Hm' Ht') as [_ H2].
  destruct (H1 key_team1 Hanna) as [Ho Hs]. destruct (H2 key_team2 Hcleo) as [Ho' _].
  split; [exact Ho|]. split; [|exact Ho'].
  apply Hs; [reflexivity|]. vm_compute. discriminate.
Defined.

(** * The round form *)

Section RoundInputFacts.
Variable toNumber : string -> Z.

(** The sum over the dictionary is the sum over any duplicate-free list of
    keys that covers it. *)
Lemma totalTrickPoints_sum (l : list string) :
  NoDup l ->
  forall m : gmap string string,
    (forall i, is_Some (m !! i) -> i ∈ l) ->
    map_fold (fun _ points sum => sum + toNumber points) 0 m
    = sumZ (map (fun i => or0 ((toNumber <$> m) !! i)) l).
Proof.
  induction l as [|x l IH]; intros Hnd m Hkeys.
  - assert (m = ∅) as ->.
    { apply map_empty. intros i. destruct (m !! i) eqn:E; [|done].
      exfalso. eapply elem_of_nil, (Hkeys i). by rewrite E. }
    by rewrite map_fold_empty.
  - apply NoDup_cons in Hnd as [Hx Hnd]. simpl. rewrite lookup_fmap.
    destruct (m !! x) as [v|] eqn:E; simpl.
    + rewrite (map_fold_delete_L _ _ x v m); [|intros; lia|done].
      rewrite (IH Hnd (delete x m)).
      * rewrite Z.add_comm. f_equal. apply sumZ_map_ext. intros i Hi.
        rewrite !lookup_fmap, lookup_delete_ne; [done|]. by intros ->.
      * intros i [w Hw]. apply lookup_delete_Some in Hw as [Hne Hw].
        assert (i ∈ x :: l) as Hin by (apply Hkeys; by rewrite Hw).
        by apply elem_of_cons in Hin as [?|?].
    + rewrite (IH Hnd m); [lia|].
      intros i Hi. assert (i ∈ x :: l) as Hin by (by apply Hkeys).
      apply elem_of_cons in Hin as [->|?]; [|done].
      rewrite E in Hi. by destruct Hi.
Qed.

(** X5. When the round form is not marked abandoned and its submit button
    is enabled, the trick points it hands to [calculateRoundScores] add up
    to 240 over the two teams (the form holding texts for players of the
    game only, four different ids). *)
Theorem submit_gate_240 (form : RoundInputState) (ts : Teams) :
  NoDup (ids (allPlayers ts)) ->
  (forall i, is_Some (f_trickPoints form !! i) -> i ∈ ids (allPlayers ts)) ->
  f_gameAbandoned form = false ->
  isSubmitDisabled toNumber form = false ->
  getTeamTricks (rawDataOf toNumber form) (team1 ts)
  + getTeamTricks (rawDataOf toNumber form) (team2 ts) = 240.
Proof.
  intros Hnd Hkeys Hab Hen.
  unfold isSubmitDisabled in Hen. rewrite Hab in Hen. simpl in Hen.
  apply bool_decide_eq_false in Hen.
  assert (Htot : totalTrickPoints toNumber form = 240)
    by (unfold remainingTrickPoints in Hen; lia).
  unfold totalTrickPoints in Htot.
  rewrite (totalTrickPoints_sum _ Hnd _ Hkeys) in Htot.
  rewrite !getTeamTricks_sum, <- sumZ_app, <- map_app. simpl.
  rewrite <- Htot. unfold ids, allPlayers. by rewrite map_map.
Qed.

(** The form only ever holds texts for players of the game. *)
Lemma resetForm_keys ts i :
  is_Some (f_trickPoints (resetForm ts) !! i) -> i ∈ ids (allPlayers ts).
Proof.
  unfold resetForm; simpl.
  change (foldl (fun acc player => <[p_id player := ""]> acc) ∅ (allPlayers ts))
    with (foldl (fun (acc : gmap string string) player =>
                   <[p_id player := (fun _ => "") (p_id player)]> acc) ∅ (allPlayers ts)).
  generalize (allPlayers ts). intros ps.
  assert (Hgen : forall (m : gmap string string),
             is_Some (foldl (fun (acc : gmap string string) player =>
                               <[p_id player := ""]> acc) m ps !! i) ->
             i ∈ ids ps \/ is_Some (m !! i)).
  { induction ps as [|p ps IH]; intros m Hs; simpl in *; [by right|].
    destruct (IH _ Hs) as [Hin|Hm].
    - left. by right.
    - destruct (decide (i = p_id p)) as [->|Hne]; [left; left|].
      rewrite lookup_insert_ne in Hm by done. by right. }
  intros Hs. destruct (Hgen ∅ Hs) as [?|Hm]; [done|].
  rewrite lookup_empty in Hm. by destruct Hm.
Qed.

Lemma changeTrickPoints_keys ts form playerId value i :
  playerId ∈ ids (allPlayers ts) ->
  (forall j, is_Some (f_trickPoints form !! j) -> j ∈ ids (allPlayers ts)) ->
  is_Some (f_trickPoints (changeTrickPoints playerId value form) !! i) ->
  i ∈ ids (allPlayers ts).
Proof.
  intros Hp Hform. simpl. destruct (decide (i = playerId)) as [->|Hne]; [done|].
  rewrite lookup_insert_ne by done. apply Hform.
Qed.

(** X6. Confirming a reviewed round commits what the review showed: the
    entry appended to the history carries the previewed team scores and
    player scores, the cumulative scores grow by the previewed team scores
    and the form is reset; this holds also when the team scores changed
    between review and confirmation, the players being the same. *)
Theorem confirm_commits_preview
    (form : RoundInputState) (ts : Teams) (st : AppState) (g : GameState) :
  activeGame st = Some g ->
  same_ids ts (teams g) ->
  exists rv g' item,
    f_reviewData (handleReview toNumber form ts) = Some rv /\
    handleConfirmRound (handleReview toNumber form ts) (teams g) st
    = (resetForm (teams g), handleAddRound (rawData rv) st) /\
    activeGame (handleAddRound (rawData rv) st) = Some g' /\
    roundHistory g' = roundHistory g ++ [item] /\
    h_team1RoundScore item = team1RoundScore (calculation rv) /\
    h_team2RoundScore item = team2RoundScore (calculation rv) /\
    h_playerScores item = playerScores (calculation rv) /\
    t_score (team1 (teams g'))
    = t_score (team1 (teams g)) + team1RoundScore (calculation rv) /\
    t_score (team2 (teams g'))
    = t_score (team2 (teams g)) + team2RoundScore (calculation rv).
Proof.
  intros Hg Hsame.
  exists {| calculation := calculateRoundScores (rawDataOf toNumber form) ts;
            rawData := rawDataOf toNumber form |},
         (gameAfterRound g (rawDataOf toNumber form)),
         (newRoundHistoryItem g (rawDataOf toNumber form)).
  split; [done|]. split; [done|]. simpl.
  split; [by apply handleAddRound_activeGame|].
  rewrite (calculateRoundScores_same_ids _ ts (teams g) Hsame).
  repeat split.
Qed.

End RoundInputFacts.

Lemma sampleTeams_NoDup : NoDup (ids (allPlayers sampleTeams)).
Proof. by apply (bool_decide_unpack _). Defined.

Lemma sampleForm_keys i :
  is_Some (f_trickPoints sampleForm !! i) -> i ∈ ids (allPlayers sampleTeams).
Proof.
  unfold sampleForm.
  revert i.
  repeat (intros ?j; apply changeTrickPoints_keys;
          [unfold ids, allPlayers; simpl; repeat first [left | right]|]).
  exact (resetForm_keys sampleTeams).
Defined.

Lemma submit_gate_240_witness :
  isSubmitDisabled decimalNumber sampleForm = false /\
  getTeamTricks (rawDataOf decimalNumber sampleForm) (team1 sampleTeams)
  + getTeamTricks (rawDataOf decimalNumber sampleForm) (team2 sampleTeams) = 240.
Proof.
  assert (Hen : isSubmitDisabled decimalNumber sampleForm = false)
    by (vm_compute; reflexivity).
  split; [exact Hen|].
  exact (submit_gate_240 decimalNumber sampleForm sampleTeams
           sampleTeams_NoDup sampleForm_keys eq_refl Hen).
Defined.

Lemma confirm_commits_preview_witness :
  exists rv g' item,
    f_reviewData (handleReview decimalNumber sampleForm (teams closeGame)) = Some rv /\
    handleConfirmRound (handleReview decimalNumber sampleForm (teams closeGame))
      (teams sampleGame) sampleApp
    = (resetForm (teams sampleGame), handleAddRound (rawData rv) sampleApp) /\
    activeGame (handleAddRound (rawData rv) sampleApp) = Some g' /\
    roundHistory g' = roundHistory sampleGame ++ [item] /\
    h_team1RoundScore item = team1RoundScore (calculation rv).
Proof.
  destruct (confirm_commits_preview decimalNumber sampleForm (teams closeGame)
              sampleApp sampleGame eq_refl)
    as (rv & g' & item & H1 & H2 & H3 & H4 & H5 & _).
  { split; reflexivity. }
  exists rv, g', item. repeat split; assumption.
Defined.

(** * Further properties of the game state transitions *)

Lemma handleUndoRound_activeGame_snoc st g h x :
  activeGame st = Some g -> roundHistory g = h ++ [x] ->
  activeGame (handleUndoRound st) = Some (gameAfterUndo g h x).
Proof. intros Hg Hh. by rewrite (handleUndoRound_snoc st g h x Hg Hh). Qed.

(** An invariant of the game that [handleAddRound] and [handleUndoRound]
    keep holds along every run. *)
Lemma run_game_invariant (I : GameState -> Prop) :
  (forall g rd, I g -> I (gameAfterRound g rd)) ->
  (forall g h x, roundHistory g = h ++ [x] -> I g -> I (gameAfterUndo g h x)) ->
  forall ops st g,
    activeGame st = Some g -> I g ->
    exists g', activeGame (run ops st) = Some g' /\ I g'.
Proof.
  intros Hadd Hundo. unfold run.
  induction ops as [|op ops IH]; intros st g Hg HI; simpl; [eauto|].
  assert (exists g1, activeGame (step st op) = Some g1 /\ I g1) as (g1 & Hg1 & HI1).
  { unfold step. rewrite winEffect_activeGame. destruct op as [rd|].
    - exists (gameAfterRound g rd). split; [by apply handleAddRound_activeGame|auto].
    - destruct (roundHistory g) as [|x h _] eqn:Hh using rev_ind.
      + rewrite handleUndoRound_empty; [eauto|]. intros g' Hg'. congruence.
      + exists (gameAfterUndo g h x).
        split; [by apply handleUndoRound_activeGame_snoc|auto]. }
  by apply (IH _ g1).
Qed.

Lemma totals_ok_add g rd :
  history_ok g -> totals_ok g -> totals_ok (gameAfterRound g rd).
Proof.
  intros (H1 & H2 & _) Htot k item. unfold gameAfterRound; simpl. intros Hk.
  destruct (decide (k < length (roundHistory g))%nat) as [Hlt|Hge].
  - rewrite lookup_app_l in Hk by done.
    rewrite take_app_le by lia. by apply Htot.
  - rewrite lookup_app_r in Hk by lia.
    destruct (k - length (roundHistory g))%nat as [|n] eqn:E; [|done].
    simpl in Hk. injection Hk as <-.
    rewrite take_ge by (rewrite length_app; simpl; lia).
    rewrite !map_app; simpl. rewrite !sumZ_snoc. by rewrite <- H1, <- H2.
Qed.

Lemma totals_ok_undo g h x :
  roundHistory g = h ++ [x] -> totals_ok g -> totals_ok (gameAfterUndo g h x).
Proof.
  intros Hh Htot k item. unfold gameAfterUndo; simpl. intros Hk.
  pose proof (lookup_lt_Some _ _ _ Hk) as Hlt.
  specialize (Htot k item). rewrite Hh in Htot.
  rewrite lookup_app_l in Htot by done. rewrite take_app_le in Htot by lia.
  by apply Htot.
Qed.

Lemma history_ok_undone g h x :
  roundHistory g = h ++ [x] -> history_ok g -> history_ok (gameAfterUndo g h x).
Proof.
  intros Hh (H1 & H2 & H3). rewrite Hh in H1, H2, H3.
  rewrite !map_app in H1, H2. rewrite map_app, length_app in H3.
  simpl in H1, H2, H3. rewrite sumZ_snoc in H1, H2.
  rewrite Nat.add_1_r, seq_S, map_app in H3. simpl in H3.
  apply app_inj_tail in H3 as [H3 _].
  unfold history_ok, gameAfterUndo; simpl. repeat split; [lia|lia|done].
Qed.

(** X7. Along every run of [addRound] and [undoLastRound] on a freshly
    started game, the totals stored in each history entry are the sums of
    the round scores up to that entry, and the totals of the newest entry
    are the current scores of the two teams. *)
Theorem history_totals (st0 : AppState) (ops : list Op) :
  freshlyStarted st0 ->
  exists g,
    activeGame (run ops st0) = Some g /\
    (forall k item, roundHistory g !! k = Some item ->
       h_team1Total item
       = sumZ (map h_team1RoundScore (take (S k) (roundHistory g))) /\
       h_team2Total item
       = sumZ (map h_team2RoundScore (take (S k) (roundHistory g)))) /\
    (forall x, last (roundHistory g) = Some x ->
       h_team1Total x = t_score (team1 (teams g)) /\
       h_team2Total x = t_score (team2 (teams g))).
Proof.
  intros Hfresh.
  destruct (freshlyStarted_history_ok st0 Hfresh) as (g0 & Hg0 & Hok0).
  assert (Htot0 : totals_ok g0).
  { destruct Hfresh as (g0' & Hg0' & _ & _ & Hh). assert (g0' = g0) as -> by congruence.
    intros k item. by rewrite Hh. }
  destruct (run_game_invariant (fun g => history_ok g /\ totals_ok g)) with
    (ops := ops) (st := st0) (g := g0) as (g & Hg & Hok & Htot); try done.
  { intros g rd [? ?]. split; [by apply history_ok_add | by apply totals_ok_add]. }
  { intros g h x Hh [? ?]. split; [by apply history_ok_undone | by apply totals_ok_undo]. }
  exists g. split; [done|]. split; [exact Htot|].
  intros x Hx. destruct Hok as (H1 & H2 & _).
  destruct (roundHistory g) as [|y h _] eqn:Hh using rev_ind; [done|].
  rewrite last_snoc in Hx. injection Hx as ->.
  destruct (Htot (length h) x) as [T1 T2].
  { rewrite Hh. by rewrite lookup_app_r, Nat.sub_diag by lia. }
  rewrite Hh in T1, T2. rewrite take_ge in T1, T2 by (rewrite length_app; simpl; lia).
  by rewrite T1, T2, H1, H2.
Qed.

Lemma history_totals_witness :
  exists g,
    activeGame (run [addRound roundBidFailed; addRound roundBidMade; undoLastRound;
                     addRound roundAbandoned] sampleApp) = Some g /\
    (forall x, last (roundHistory g) = Some x ->
       h_team1Total x = t_score (team1 (teams g)) /\
       h_team2Total x = t_score (team2 (teams g))).
Proof.
  destruct (history_totals sampleApp
              [addRound roundBidFailed; addRound roundBidMade; undoLastRound;
               addRound roundAbandoned] sampleApp_fresh)
    as (g & Hg & _ & Hlast).
  exists g. split; assumption.
Defined.

(** ** The ledger along a run *)

Lemma ledgerScores_apply scores ps :
  ledgerScores (applyRoundToPlayers scores ps)
  = map (fun il => (il.1, il.2 + or0 (scores !! il.1))) (ledgerScores ps).
Proof.
  rewrite applyRoundToPlayers_spec. unfold ledgerScores. by rewrite !map_map.
Qed.

Lemma ledgerScores_revert scores ps :
  ledgerScores (revertRoundOnPlayers scores ps)
  = map (fun il => (il.1, il.2 - or0 (scores !! il.1))) (ledgerScores ps).
Proof.
  rewrite revertRoundOnPlayers_spec. unfold ledgerScores. by rewrite !map_map.
Qed.

Lemma ledgerScores_winEffect st :
  ledgerScores (players (winEffect st)) = ledgerScores (players st).
Proof.
  unfold winEffect. destruct (detectWinner st) as [w|]; [|done].
  unfold handleEndGame. destruct (activeGame st) as [g|]; [|done]. simpl.
  unfold recordGameCompletion, ledgerScores. by rewrite map_map.
Qed.

Lemma roundsCredit_snoc h x i :
  roundsCredit (h ++ [x]) i = roundsCredit h i + or0 (h_playerScores x !! i).
Proof. unfold roundsCredit. rewrite map_app. simpl. apply sumZ_snoc. Qed.

(** The ledger of [st] holds the players of [ps0] with the credit of the
    rounds in the history added to their lifetime scores. *)
Lemma step_ledger ps0 st g op :
  activeGame st = Some g ->
  ledgerScores (players st)
  = map (fun p => (p_id p, p_lifetimeScore p + roundsCredit (roundHistory g) (p_id p))) ps0 ->
  exists g', activeGame (step st op) = Some g' /\
    ledgerScores (players (step st op))
    = map (fun p => (p_id p, p_lifetimeScore p + roundsCredit (roundHistory g') (p_id p))) ps0.
Proof.
  intros Hg Hled. unfold step. rewrite winEffect_activeGame, ledgerScores_winEffect.
  destruct op as [rd|].
  - exists (gameAfterRound g rd). split; [by apply handleAddRound_activeGame|].
    rewrite (handleAddRound_players st g rd Hg), ledgerScores_apply, Hled, map_map.
    apply map_ext. intros p. simpl. rewrite roundsCredit_snoc. simpl.
    f_equal. lia.
  - destruct (roundHistory g) as [|x h _] eqn:Hh using rev_ind.
    + rewrite handleUndoRound_empty by (intros g' Hg'; congruence).
      exists g. by rewrite Hh.
    + exists (gameAfterUndo g h x).
      split; [by apply handleUndoRound_activeGame_snoc|].
      rewrite (handleUndoRound_snoc st g h x Hg Hh). simpl.
      rewrite ledgerScores_revert, Hled, map_map.
      apply map_ext. intros p. simpl. rewrite roundsCredit_snoc. f_equal. lia.
Qed.

Lemma run_ledger ps0 ops st g :
  activeGame st = Some g ->
  ledgerScores (players st)
  = map (fun p => (p_id p, p_lifetimeScore p + roundsCredit (roundHistory g) (p_id p))) ps0 ->
  exists g', activeGame (run ops st) = Some g' /\
    ledgerScores (players (run ops st))
    = map (fun p => (p_id p, p_lifetimeScore p + roundsCredit (roundHistory g') (p_id p))) ps0.
Proof.
  unfold run. revert st g.
  induction ops as [|op ops IH]; intros st g Hg Hled; simpl; [eauto|].
  destruct (step_ledger ps0 st g op Hg Hled) as (g1 & Hg1 & Hled1).
  by apply (IH _ g1).
Qed.

(** X8. Along every run of [addRound] and [undoLastRound] on a game that
    starts with an empty history, the ledger keeps its players in order and
    each player's lifetime score is the score at the start of the game plus
    that player's entries in the rounds that are in the history: rounds
    taken back leave no trace, whether or not the game has been won. *)
Theorem lifetime_tracks_history (st0 : AppState) (g0 : GameState) (ops : list Op) :
  activeGame st0 = Some g0 -> roundHistory g0 = [] ->
  exists g,
    activeGame (run ops st0) = Some g /\
    ledgerScores (players (run ops st0))
    = map (fun p => (p_id p,
                     p_lifetimeScore p + roundsCredit (roundHistory g) (p_id p)))
          (players st0).
Proof.
  intros Hg0 Hh0. apply (run_ledger (players st0) ops st0 g0 Hg0).
  rewrite Hh0. unfold ledgerScores. apply map_ext. intros p.
  unfold roundsCredit. simpl. f_equal. lia.
Qed.

Lemma lifetime_tracks_history_witness :
  exists g,
    activeGame (run [addRound roundBidFailed; addRound roundBidMade; undoLastRound]
                    seasonedApp) = Some g /\
    ledgerScores (players (run [addRound roundBidFailed; addRound roundBidMade;
                                undoLastRound] seasonedApp))
    = map (fun p => (p_id p,
                     p_lifetimeScore p + roundsCredit (roundHistory g) (p_id p)))
          (players seasonedApp).
Proof.
  exact (lifetime_tracks_history seasonedApp sampleGame
           [addRound roundBidFailed; addRound roundBidMade; undoLastRound]
           eq_refl eq_refl).
Defined.

(** X9. In an active game [handleUndoRound] after [handleAddRound] gives
    back the whole state, ledger included; and with the win-detection effect
    running after each of the two, so that the added round may have won the
    game, every player's lifetime score is still back at its value. *)
Theorem undo_restores_ledger (st : AppState) (g : GameState) (rd : RoundData) :
  activeGame st = Some g ->
  handleUndoRound (handleAddRound rd st) = st /\
  ledgerScores (players (step (step st (addRound rd)) undoLastRound))
  = ledgerScores (players st).
Proof.
  intros Hg. split; [by apply (undo_add_state st g)|].
  unfold step at 1. rewrite ledgerScores_winEffect.
  assert (Hg1 : activeGame (step st (addRound rd)) = Some (gameAfterRound g rd)).
  { unfold step. rewrite winEffect_activeGame. by apply handleAddRound_activeGame. }
  rewrite (handleUndoRound_snoc _ _ (roundHistory g) (newRoundHistoryItem g rd) Hg1)
    by done.
  simpl. rewrite ledgerScores_revert. unfold step.
  rewrite ledgerScores_winEffect, (handleAddRound_players st g rd Hg).
  rewrite ledgerScores_apply, map_map. rewrite <- (map_id (ledgerScores (players st))) at 2.
  apply map_ext. intros [i l]. simpl. f_equal. lia.
Qed.

Lemma undo_restores_ledger_witness :
  ledgerScores (players (step (step closeApp (addRound roundBidMade)) undoLastRound))
  = ledgerScores (players closeApp) /\
  is_Some (winner (step (step closeApp (addRound roundBidMade)) undoLastRound)).
Proof.
  split.
  - exact (proj2 (undo_restores_ledger closeApp closeGame roundBidMade eq_refl)).
  - vm_compute. eexists. reflexivity.
Defined.

(** ** Winning, giving up, discarding *)

Lemma run_after_win_witness :
  winner wonApp = Some (mkTeam "Anna & Bert" [anna; bert] 1070) /\
  winner (run [undoLastRound; addRound roundBidFailed; undoLastRound] wonApp)
  = Some (mkTeam "Anna & Bert" [anna; bert] 1070) /\
  map p_wins (players (run [undoLastRound; addRound roundBidFailed; undoLastRound] wonApp))
  = map p_wins (players wonApp).
Proof.
  assert (Hw : winner wonApp = Some (mkTeam "Anna & Bert" [anna; bert] 1070))
    by (vm_compute; reflexivity).
  destruct (run_after_win [undoLastRound; addRound roundBidFailed; undoLastRound]
              wonApp _ Hw) as (H1 & _ & _ & H4).
  split; [exact Hw|]. split; [exact H1 | exact H4].
Defined.

Lemma handleEndGame_counts_witness :
  winner (handleEndGame (team2 (teams closeGame)) closeApp)
  = Some (team2 (teams closeGame)) /\
  map (fun p => (p_id p, p_gamesPlayed p, p_wins p))
      (players (handleEndGame (team2 (teams closeGame)) closeApp))
  = [("player-1", 1, 0); ("player-2", 1, 0); ("player-3", 1, 1); ("player-4", 1, 1)].
Proof.
  assert (Hne : t_name (team1 (teams closeGame)) <> t_name (team2 (teams closeGame)))
    by discriminate.
  destruct (handleEndGame_counts closeApp closeGame (team2 (teams closeGame))
              eq_refl (or_intror eq_refl) Hne) as [Hw Hps].
  split; [exact Hw|]. rewrite Hps. vm_compute. reflexivity.
Defined.

(** X12. A game started by the form with a target score that is not
    positive is won by team1 at once, before any round is played; with a
    positive target score a fresh game has no winner. *)
Theorem nonpositive_target_wins_at_once
    (a b c d : string) (target : Z) (st st' : AppState) :
  size (selectedPlayerIds a b c d) = 4%nat ->
  handleStart a b c d target st = Normal st' ->
  winner st = None ->
  (target <= 0 ->
   exists w, winner (winEffect st') = Some w /\ ids (t_players w) = [a; b]) /\
  (0 < target -> winner (winEffect st') = None).
Proof.
  intros Hsz Hrun Hw. unfold handleStart in Hrun.
  rewrite bool_decide_eq_false_2 in Hrun by (intros Hn; by apply Hn).
  destruct (findPlayer (players st) a) as [p1|] eqn:H1; [|done].
  destruct (findPlayer (players st) b) as [p2|] eqn:H2; [|done].
  destruct (findPlayer (players st) c) as [p3|] eqn:H3; [|done].
  destruct (findPlayer (players st) d) as [p4|] eqn:H4; [|done].
  apply findPlayer_Some in H1 as [_ <-], H2 as [_ <-].
  injection Hrun as <-.
  erewrite winEffect_winner; [|reflexivity|done]. simpl. split; intros Ht.
  - rewrite bool_decide_eq_true_2 by done. eauto.
  - by rewrite !bool_decide_eq_false_2 by lia.
Qed.

Lemma nonpositive_target_wins_at_once_witness :
  exists w,
    winner (winEffect (handleStartGame sampleTeams 0 noGameApp)) = Some w /\
    ids (t_players w) = ["player-1"; "player-2"].
Proof.
  assert (Hsz : size (selectedPlayerIds "player-1" "player-2" "player-3" "player-4")
                = 4%nat) by (vm_compute; reflexivity).
  assert (Hrun : handleStart "player-1" "player-2" "player-3" "player-4" 0 noGameApp
                 = Normal (handleStartGame sampleTeams 0 noGameApp))
    by (vm_compute; reflexivity).
  apply (nonpositive_target_wins_at_once _ _ _ _ 0 noGameApp _ Hsz Hrun eq_refl).
  discriminate.
Defined.

(** X13. Without an active game no sequence of [addRound] and
    [undoLastRound] changes anything; that is the state [handleReset]
    leaves, which also keeps the ledger as it was: discarding a game records
    no game and no win and takes no lifetime points back. *)
Theorem no_game_no_change (st : AppState) (ops : list Op) :
  (activeGame st = None -> run ops st = st) /\
  run ops (handleReset st) = handleReset st /\
  players (handleReset st) = players st.
Proof.
  assert (Hgen : forall s, activeGame s = None -> run ops s = s).
  { unfold run. induction ops as [|op ops IH]; intros s Hs; simpl; [done|].
    assert (step s op = s) as ->; [|by apply IH].
    unfold step, winEffect, detectWinner, handleAddRound, handleUndoRound.
    destruct op; by rewrite !Hs. }
  split; [apply Hgen|]. split; [by apply Hgen|done].
Qed.

Lemma no_game_no_change_witness :
  run [addRound roundBidMade; undoLastRound; addRound roundAbandoned] noGameApp
  = noGameApp.
Proof.
  exact (proj1 (no_game_no_change noGameApp
                  [addRound roundBidMade; undoLastRound; addRound roundAbandoned])
               eq_refl).
Defined.

(** X14. The class of a row of the history table names the team that
    [calculateRoundScores] scored as the bidder's team when the round was
    added, also for a bidder who is on neither team, and whatever became of
    the team scores since. *)
Theorem rowClassName_bidder_team (g : GameState) (rd : RoundData) (ts : Teams) :
  same_ids (teams g) ts ->
  rowClassName ts (newRoundHistoryItem g rd)
  = match spielmacherTeamKey rd (teams g) with
    | key_team1 => "bid-team1"
    | key_team2 => "bid-team2"
    end.
Proof.
  intros [H1 H2]. unfold rowClassName, getTeamForPlayer, spielmacherTeamKey. simpl.
  rewrite <- (some_id_ids _ _ (spielmacherId rd) H1).
  destruct (some_id (t_players (team1 (teams g))) (spielmacherId rd)); [done|].
  by destruct (some_id (t_players (team2 ts)) (spielmacherId rd)).
Qed.

Lemma rowClassName_bidder_team_witness :
  rowClassName (teams closeGame) (newRoundHistoryItem sampleGame roundForeignBidder)
  = "bid-team2" /\
  rowClassName (teams closeGame) (newRoundHistoryItem sampleGame roundBidMade)
  = "bid-team1".
Proof.
  split.
  - apply (rowClassName_bidder_team sampleGame roundForeignBidder (teams closeGame)).
    split; reflexivity.
  - apply (rowClassName_bidder_team sampleGame roundBidMade (teams closeGame)).
    split; reflexivity.
Defined.

(** * The player list *)

Lemma playerIdAt_inj t1 t2 : playerIdAt t1 = playerIdAt t2 -> t1 = t2.
Proof.
  unfold playerIdAt. intros H. simpl in H. injection H as Hpretty.
  by apply (inj pretty).
Qed.

Lemma addPlayers_ids entries st :
  ids (players (addPlayers entries st))
  = ids (players st) ++ map (fun e => playerIdAt e.2) entries.
Proof.
  unfold addPlayers. revert st.
  induction entries as [|e entries IH]; intros st; simpl.
  - by rewrite app_nil_r.
  - rewrite IH. unfold handleAddPlayer, ids; simpl.
    rewrite map_app. simpl. by rewrite <- app_assoc.
Qed.

Lemma NoDup_playerIds (times : list Z) :
  NoDup times -> NoDup (map playerIdAt times).
Proof.
  induction 1 as [|t times Hnotin Hnd IH]; simpl; constructor; [|done].
  intros Hin. apply list_elem_of_fmap in Hin as (t' & Heq & Hin).
  apply playerIdAt_inj in Heq as ->. done.
Qed.

(** X15. Players added at clock values that differ from one another, and
    whose ids are not in the list yet, keep the ids of the list free of
    duplicates; two players added at the same clock value get the same
    id. *)
Theorem addPlayers_NoDup (entries : list (string * Z)) (st : AppState) :
  (NoDup (ids (players st)) ->
   NoDup (map snd entries) ->
   (forall t, t ∈ map snd entries -> playerIdAt t ∉ ids (players st)) ->
   NoDup (ids (players (addPlayers entries st)))) /\
  (forall n1 n2 t,
     ~ NoDup (ids (players (handleAddPlayer n2 t (handleAddPlayer n1 t st))))).
Proof.
  split.
  - intros Hnd Ht Hfresh. rewrite addPlayers_ids. apply NoDup_app.
    split; [done|]. split.
    + intros i Hi Hin. apply list_elem_of_fmap in Hin as (e & -> & He).
      apply (Hfresh e.2); [|done]. apply list_elem_of_fmap. eauto.
    + rewrite <- (map_map snd playerIdAt). by apply NoDup_playerIds.
  - intros n1 n2 t Hnd. unfold handleAddPlayer, ids in Hnd. simpl in Hnd.
    rewrite !map_app in Hnd. simpl in Hnd. rewrite <- app_assoc in Hnd. simpl in Hnd.
    apply NoDup_app in Hnd as (_ & _ & Hnd).
    apply NoDup_cons in Hnd as [Hnotin _]. apply Hnotin. left.
Qed.

Lemma addPlayers_NoDup_witness :
  NoDup (ids (players (addPlayers [("Emil", 1700000000000); ("Frida", 1700000000001)]
                                  noGameApp))).
Proof.
  apply (addPlayers_NoDup [("Emil", 1700000000000); ("Frida", 1700000000001)] noGameApp).
  - by apply (bool_decide_unpack _).
  - by apply (bool_decide_unpack _).
  - intros t Ht. simpl in Ht.
    repeat (apply elem_of_cons in Ht as [->|Ht];
            [by apply (bool_decide_unpack _)|]).
    by apply elem_of_nil in Ht.
Defined.

Lemma filter_keep_all {A} (P : A -> Prop) `{!forall x, Decision (P x)} (l : list A) :
  (forall x, x ∈ l -> P x) -> filter P l = l.
Proof.
  induction l as [|x l IH]; intros Hall; [done|].
  rewrite filter_cons_True by (apply Hall; left).
  f_equal. apply IH. intros y Hy. apply Hall. by right.
Qed.

(** X16. Deleting a player right after adding it gives back the state as it
    was, if no other player has the new id; it then takes away nobody else.
    A deletion that is not confirmed changes nothing. *)
Theorem delete_undoes_add (name : string) (now : Z) (st : AppState) :
  (playerIdAt now ∉ ids (players st) ->
   handleDeletePlayer (playerIdAt now) true (handleAddPlayer name now st) = st) /\
  (forall i, handleDeletePlayer i false st = st).
Proof.
  split; [|done]. intros Hfresh.
  unfold handleDeletePlayer, handleAddPlayer, set_players. simpl.
  rewrite filter_app, filter_keep_all.
  - rewrite filter_cons_False by (intros H; by apply H).
    rewrite filter_nil, app_nil_r. by destruct st.
  - intros p Hp Heq. apply Hfresh. rewrite <- Heq. by apply elem_of_ids.
Qed.

Lemma delete_undoes_add_witness :
  handleDeletePlayer (playerIdAt 1700000000000) true
    (handleAddPlayer "Emil" 1700000000000 sampleApp) = sampleApp.
Proof.
  apply (delete_undoes_add "Emil" 1700000000000 sampleApp).
  by apply (bool_decide_unpack _).
Defined.

(** ** Players who are not in the game *)

Lemma playerScores_lookup_outsider rd ts i :
  i ∉ ids (allPlayers ts) ->
  playerScores (calculateRoundScores rd ts) !! i = None.
Proof.
  rewrite (elem_of_ids_allPlayers rd), playerScores_eq. unfold computePlayerScores.
  intros Hnot.
  destruct (gameAbandoned rd); [|case_bool_decide]; simpl;
    rewrite !assignScores_lookup;
    destruct (decide (i ∈ ids (t_players (otherTeam rd ts)))); try tauto;
    destruct (decide (i ∈ ids (t_players (spielmacherTeam rd ts)))); try tauto;
    apply lookup_empty.
Qed.

Lemma detectWinner_team st g w :
  activeGame st = Some g -> detectWinner st = Some w ->
  w = team1 (teams g) \/ w = team2 (teams g).
Proof.
  intros Hg. unfold detectWinner. rewrite Hg.
  destruct (winner st); [done|]. repeat case_bool_decide; intros [= <-]; auto.
Qed.

Lemma winEffect_outsider st g k p :
  activeGame st = Some g ->
  players st !! k = Some p ->
  p_id p ∉ ids (allPlayers (teams g)) ->
  players (winEffect st) !! k = Some p.
Proof.
  intros Hg Hk Hout. unfold winEffect.
  destruct (detectWinner st) as [w|] eqn:Hw; [|done].
  unfold handleEndGame. rewrite Hg. simpl. unfold recordGameCompletion.
  rewrite list_lookup_fmap, Hk. simpl.
  assert (Hnot : forall t, t = team1 (teams g) \/ t = team2 (teams g) ->
                           some_id (t_players t) (p_id p) = false).
  { intros t Ht. destruct (some_id (t_players t) (p_id p)) eqn:E; [|done].
    exfalso. apply Hout. apply some_id_true in E.
    unfold allPlayers. unfold ids in *. rewrite map_app. apply elem_of_app.
    destruct Ht as [-> | ->]; [by left | by right]. }
  pose proof (Hnot _ (or_introl eq_refl)) as H1.
  pose proof (Hnot _ (or_intror eq_refl)) as H2.
  unfold loserTeamOf.
  destruct (detectWinner_team st g w Hg Hw) as [-> | ->];
    case_bool_decide; rewrite ?H1, ?H2; by destruct p.
Qed.

(** X17. A player of the ledger who is on neither team of the active game
    is left as it is by [handleAddRound] and by the win-detection effect
    that follows it, even when the round ends the game. *)
Theorem addRound_outsiders_unchanged
    (st : AppState) (g : GameState) (rd : RoundData) (k : nat) (p : Player) :
  activeGame st = Some g ->
  players st !! k = Some p ->
  p_id p ∉ ids (allPlayers (teams g)) ->
  players (handleAddRound rd st) !! k = Some p /\
  players (step st (addRound rd)) !! k = Some p.
Proof.
  intros Hg Hk Hout.
  assert (Hadd : players (handleAddRound rd st) !! k = Some p).
  { rewrite (handleAddRound_players st g rd Hg). unfold applyRoundToPlayers.
    rewrite list_lookup_fmap, Hk. simpl.
    by rewrite (playerScores_lookup_outsider rd (teams g) (p_id p) Hout). }
  split; [exact Hadd|]. unfold step.
  apply (winEffect_outsider _ (gameAfterRound g rd));
    [by apply handleAddRound_activeGame|exact Hadd|exact Hout].
Qed.

Lemma addRound_outsiders_unchanged_witness :
  players (step (handleAddPlayer "Emil" 1700000000000 closeApp) (addRound roundBidMade))
  !! 4%nat
  = Some (newPlayerAt "Emil" 1700000000000).
Proof.
  refine (proj2 (addRound_outsiders_unchanged
                   (handleAddPlayer "Emil" 1700000000000 closeApp) closeGame
                   roundBidMade 4 (newPlayerAt "Emil" 1700000000000)
                   eq_refl eq_refl _)).
  by apply (bool_decide_unpack _).
Defined.

(** * The two teams are scored alike *)

(** X18. When the bidder is on exactly one of the two teams, exchanging the
    places of the teams exchanges the two round scores and changes neither
    the players' scores nor the reason. *)
Theorem swapTeams_swaps_scores (rd : RoundData) (ts : Teams) :
  some_id (t_players (team1 ts)) (spielmacherId rd)
  <> some_id (t_players (team2 ts)) (spielmacherId rd) ->
  team1RoundScore (calculateRoundScores rd (swapTeams ts))
  = team2RoundScore (calculateRoundScores rd ts) /\
  team2RoundScore (calculateRoundScores rd (swapTeams ts))
  = team1RoundScore (calculateRoundScores rd ts) /\
  playerScores (calculateRoundScores rd (swapTeams ts))
  = playerScores (calculateRoundScores rd ts) /\
  reason (calculateRoundScores rd (swapTeams ts)) = reason (calculateRoundScores rd ts).
Proof.
  intros Hone.
  assert (Hkeys : spielmacherTeam rd (swapTeams ts) = spielmacherTeam rd ts /\
                  otherTeam rd (swapTeams ts) = otherTeam rd ts /\
                  spielmacherTeamKey rd (swapTeams ts) = otherTeamKey rd ts).
  { unfold spielmacherTeam, otherTeam, otherTeamKey, spielmacherTeamKey, swapTeams.
    simpl.
    destruct (some_id (t_players (team1 ts)) (spielmacherId rd)),
             (some_id (t_players (team2 ts)) (spielmacherId rd)); done. }
  destruct Hkeys as (Hs & Ho & Hk).
  assert (Hcomp : computePlayerScores rd (swapTeams ts) = computePlayerScores rd ts)
    by (unfold computePlayerScores; by rewrite Hs, Ho).
  unfold calculateRoundScores, spielmacherTeamRoundScore.
  rewrite Hcomp, Hs, Ho, Hk. unfold otherTeamKey.
  destruct (computePlayerScores rd ts) as [scores why]. simpl.
  by destruct (spielmacherTeamKey rd ts).
Qed.

Lemma swapTeams_swaps_scores_witness :
  team1RoundScore (calculateRoundScores roundBidFailed (swapTeams sampleTeams)) = 180 /\
  team2RoundScore (calculateRoundScores roundBidFailed (swapTeams sampleTeams)) = -300.
Proof.
  assert (Hone : some_id (t_players (team1 sampleTeams)) (spielmacherId roundBidFailed)
                 <> some_id (t_players (team2 sampleTeams)) (spielmacherId roundBidFailed))
    by (vm_compute; discriminate).
  destruct (swapTeams_swaps_scores roundBidFailed sampleTeams Hone) as (H1 & H2 & _).
  split; [rewrite H1 | rewrite H2]; vm_compute; reflexivity.
Defined.

(** * Starting with a player who is gone *)

Lemma findPlayer_None ps i : i ∉ ids ps -> findPlayer ps i = None.
Proof.
  intros Hnot. destruct (findPlayer ps i) as [p|] eqn:E; [|done].
  apply findPlayer_Some in E as [Hin <-]. exfalso. by apply Hnot, elem_of_ids.
Qed.

(** X19. When four different ids are selected and one of them is not in
    the player list, [handleStart] ends in a [TypeError] and starts no
    game. *)
Theorem handleStart_unknown_id_throws
    (a b c d : string) (target : Z) (st : AppState) (i : string) :
  size (selectedPlayerIds a b c d) = 4%nat ->
  i ∈ [a; b; c; d] ->
  i ∉ ids (players st) ->
  handleStart a b c d target st = Throw TypeError.
Proof.
  intros Hsz Hi Hnot. unfold handleStart.
  rewrite bool_decide_eq_false_2 by (intros Hn; by apply Hn).
  repeat (apply elem_of_cons in Hi as [->|Hi];
          [rewrite (findPlayer_None _ _ Hnot); by repeat (destruct (findPlayer _ _))|]).
  by apply elem_of_nil in Hi.
Qed.

Lemma handleStart_unknown_id_throws_witness :
  handleStart "player-1" "player-2" "player-3" "player-7" 1000 noGameApp
  = Throw TypeError.
Proof.
  apply (handleStart_unknown_id_throws _ _ _ _ 1000 noGameApp "player-7").
  - vm_compute. reflexivity.
  - repeat first [left | right].
  - by apply (bool_decide_unpack _).
Defined.
